(** * Lab Co-Pilot: the dashboard front end and the agent core

    The front end (the [Home] page, the [DataUploader] drop zone and the
    interfaces of [lib/types.ts]) is embedded from its TypeScript source.
    The agent core (tabular store, tool registry, orchestrator,
    conversation session) lives in the Python back end; the modules that
    embed it say so in their doc comments. *)

From Stdlib Require Import ZArith QArith Qcanon DecimalString.
From stdpp Require Import base option list strings gmap sorting.

Open Scope string_scope.
Open Scope list_scope.

Set Warnings "-register-all".

(** ** [lib/types.ts] *)

(** A JavaScript [number]. The fields the development computes with (row
    counts, the HTTP status) hold integers. *)
Definition number : Type := Z.

(** The decimal digits of an integer. JavaScript prints an integer-valued
    number this way as long as its magnitude is below [10^21]. *)
Definition decimal_digits (n : number) : string :=
  NilZero.string_of_int (Z.to_int n).

(** Values of type [unknown] that the page only passes along. *)
Inductive unknown : Type :=
| UNull
| UBool (b : bool)
| UNumber (n : number)
| UString (s : string).

Record ColumnInfo : Type := {
  name : string;
  dtype : string;
  null_count : number;
  unique_count : number;
  sample_values : list unknown;
  min : option number;
  max : option number;
  mean : option number
}.

Record UploadedFileInfo : Type := {
  file_id : string;
  filename : string;
  columns : list string;
  column_info : list ColumnInfo;
  row_count : number;
  preview : list (list (string * unknown))
}.

Record UploadDataResponse : Type := {
  files : list UploadedFileInfo;
  file_type : string;
  total_files : number
}.

Record DatasetMeta : Type := {
  meta_file_id : string;
  meta_filename : string;
  meta_columns : list string;
  meta_row_count : number
}.

Record DocUploadResponse : Type := {
  resp_doc_id : string;
  resp_filename : string;
  resp_num_chunks : number;
  resp_entities : list (string * string)
}.

Record DocListItem : Type := {
  doc_id : string;
  doc_name : string;
  doc_num_chunks : number
}.

(** [role: "user" | "assistant"] of [ChatMessage]. *)
Inductive Role : Type :=
| user
| assistant.

(** The string literal a role is written as. *)
Definition role_literal (r : Role) : string :=
  match r with
  | user => "user"
  | assistant => "assistant"
  end.

Record ChatMessage : Type := {
  role : Role;
  content : string;
  plot_json : option string;
  table_data : option (list (list (string * unknown)));
  table_columns : option (list string)
}.

(** ** The dashboard page, [Home] *)

Module Home.

(** The [datasets] state of the page. *)
Abbreviation datasets_state := (list UploadedFileInfo).

(** The entry the [useEffect] builds from a [DatasetMeta]. *)
Definition of_meta (d : DatasetMeta) : UploadedFileInfo :=
  {| file_id := meta_file_id d;
     filename := meta_filename d;
     columns := meta_columns d;
     column_info := [];
     row_count := meta_row_count d;
     preview := [] |}.

(** [const newIds = new Set(data.files.map((f) => f.file_id))] *)
Definition newIds (data : UploadDataResponse) : gset string :=
  list_to_set (file_id <$> files data).

(** The updater [handleDataUpload] passes to [setDatasets]:
    [[...prev.filter((d) => !newIds.has(d.file_id)), ...data.files]]. *)
Definition handleDataUpload (data : UploadDataResponse)
    (prev : datasets_state) : datasets_state :=
  filter (λ d, file_id d ∉ newIds data) prev ++ files data.

(** The updater [handleDocUpload] passes to [setDocuments]. *)
Definition handleDocUpload (data : DocUploadResponse)
    (prev : list DocListItem) : list DocListItem :=
  filter (λ d, doc_id d ≠ resp_doc_id data) prev
  ++ [{| doc_id := resp_doc_id data;
         doc_name := resp_filename data;
         doc_num_chunks := resp_num_chunks data |}].

(** The text of the top bar. [datasets[datasets.length - 1]] is
    [undefined] out of range and reading [.filename] of it throws a
    [TypeError], which is [None] here. *)
Definition top_bar (datasets : datasets_state) : option string :=
  if decide (0 < length datasets) then
    d ← datasets !! (length datasets - 1);
    Some ("Active: " +:+ filename d)
  else Some "No dataset loaded".

(** An entry with the given id and name, as the list endpoint reports it. *)
Definition entry (id nm : string) : UploadedFileInfo :=
  of_meta {| meta_file_id := id; meta_filename := nm;
             meta_columns := []; meta_row_count := 0%Z |}.

Definition upload_of (fs : list UploadedFileInfo) : UploadDataResponse :=
  {| files := fs; file_type := "csv"; total_files := Z.of_nat (length fs) |}.

End Home.

(** ** The drop zone, [DataUploader] *)

Module DataUploader.

(** *** The runtime

    [Number.prototype.toString] (behind a template literal) and
    [String.prototype.toUpperCase] are built-ins of the JavaScript
    runtime; the component is embedded over any runtime that provides
    them. *)
Class JsHost : Type := {
  number_to_string : number → string;
  toUpperCase : string → string
}.

(** A runtime for concrete inputs: decimal digits, which is what
    JavaScript prints for integers of magnitude below [10^21], and upper
    case on the letters a to z, which is what [toUpperCase] does on ASCII
    text. *)
Definition upper_ascii (c : Ascii.ascii) : Ascii.ascii :=
  let n := Ascii.nat_of_ascii c in
  if (97 <=? n)%nat && (n <=? 122)%nat then Ascii.ascii_of_nat (n - 32) else c.

Fixpoint upper_ascii_string (s : string) : string :=
  match s with
  | EmptyString => EmptyString
  | String c s' => String (upper_ascii c) (upper_ascii_string s')
  end.

Definition ascii_host : JsHost :=
  {| number_to_string := decimal_digits; toUpperCase := upper_ascii_string |}.

(** *** Values

    The [detail] of a response body is declared a string by a cast that
    nothing checks; at run time it is whatever the server sent (FastAPI
    answers a 422 with a list of objects). The handler only tests such a
    value for truthiness, and React renders it as a child. A value is a
    string, or another value given by what those two observe: whether it
    is truthy, and the text React renders for it as a child ([None] when
    React throws, as it does for a plain object). *)
Inductive JsValue : Type :=
| VString (s : string)
| VOther (is_truthy : bool) (child : option string).

Coercion VString : string >-> JsValue.

(** [Boolean(v)]; the empty string is falsy. *)
Definition js_truthy (v : JsValue) : bool :=
  match v with
  | VString s => negb (String.eqb s "")
  | VOther t _ => t
  end.

(** What React renders for the value as a child. *)
Definition child_text (v : JsValue) : option string :=
  match v with
  | VString s => Some s
  | VOther _ c => c
  end.

(** The [status] of a response is declared a number by the same cast;
    the handler only prints it in a template literal. A status is a
    number, or another value given by what a template literal prints for
    it. *)
Inductive StatusValue : Type :=
| StatusCode (n : number)
| StatusOther (printed : string).

(** *** Thrown values

    The [catch] clause receives [err : unknown]. The handler inspects it
    with [err && typeof err === "object" && "response" in err] and
    [err instanceof Error], and reads [response?.data?.detail],
    [response?.status] and [message]; a thrown value is modelled that
    far. Thrown values are data: primitives, and objects whose properties
    hold data, as a response body and an [Error] constructor make them
    (no accessor that throws when read, and an [Error] whose message is a
    string). *)

Record ResponseData : Type := {
  detail : option JsValue
}.

Record AxiosResponse : Type := {
  data : option ResponseData;
  status : option StatusValue
}.

(** An object: [response] is [None] when the object has no such key,
    [Some None] when the key is there and holds [undefined] or [null];
    [message] is [None] when the object has no such property. *)
Record JsObject : Type := {
  instanceof_Error : bool;
  response : option (option AxiosResponse);
  message : option string;
  stack : option string
}.

(** The other values a [throw] can carry (a function, a symbol, a
    bigint) are no objects for [typeof] and no [Error]s: the handler
    treats them as it treats a number. *)
Inductive JsThrown : Type :=
| ThrowUndefined
| ThrowNull
| ThrowBoolean (b : bool)
| ThrowNumber (n : number)
| ThrowString (s : string)
| ThrowObject (o : JsObject).

(** [Boolean(err)] *)
Definition truthy (err : JsThrown) : bool :=
  match err with
  | ThrowUndefined | ThrowNull => false
  | ThrowBoolean b => b
  | ThrowNumber n => negb (n =? 0)%Z
  | ThrowString s => negb (String.eqb s "")
  | ThrowObject _ => true
  end.

(** [typeof err === "object"]; [typeof null] is ["object"] too. *)
Definition typeof_object (err : JsThrown) : bool :=
  match err with
  | ThrowNull | ThrowObject _ => true
  | _ => false
  end.

(** ["response" in err], evaluated on objects only. *)
Definition in_response (err : JsThrown) : bool :=
  match err with
  | ThrowObject o => bool_decide (is_Some (response o))
  | _ => false
  end.

(** [err instanceof Error] *)
Definition instanceof_error (err : JsThrown) : bool :=
  match err with
  | ThrowObject o => instanceof_Error o
  | _ => false
  end.

(** [axErr.response] after the cast. *)
Definition axErr_response (err : JsThrown) : option AxiosResponse :=
  match err with
  | ThrowObject o => mjoin (response o)
  | _ => None
  end.

(** [axErr.response?.data?.detail] *)
Definition response_detail (err : JsThrown) : option JsValue :=
  r ← axErr_response err; d ← data r; detail d.

(** [axErr.response?.status] *)
Definition response_status (err : JsThrown) : option StatusValue :=
  r ← axErr_response err; status r.

(** [err.message]; an [Error] without a message of its own inherits the
    empty one of [Error.prototype]. *)
Definition error_message_prop (err : JsThrown) : option string :=
  match err with
  | ThrowObject o =>
      match message o with
      | Some m => Some m
      | None => if instanceof_Error o then Some "" else None
      end
  | _ => None
  end.

(** [a || b]: [a] itself when it is truthy, whatever its type. *)
Definition or_else (a : option JsValue) (b : string) : JsValue :=
  match a with
  | Some v => if js_truthy v then v else VString b
  | None => VString b
  end.

(** The same thrown value with another [stack]. *)
Definition with_stack (tr : option string) (err : JsThrown) : JsThrown :=
  match err with
  | ThrowObject o =>
      ThrowObject {| instanceof_Error := instanceof_Error o;
                     response := response o;
                     message := message o;
                     stack := tr |}
  | _ => err
  end.

(** *** The component's state *)

(** [error] is declared [string | null]; it holds what [setError] was
    given. *)
Record State : Type := {
  loading : bool;
  successMsg : option string;
  error : option JsValue
}.

Definition initial : State :=
  {| loading := false; successMsg := None; error := None |}.

(** How a statement ends: normally, or by throwing. *)
Inductive Completion (A : Type) : Type :=
| Normal (a : A)
| Throw (e : JsThrown).
Arguments Normal {A} a.
Arguments Throw {A} e.

(** Statements over the component's state. *)
Definition Eff (A : Type) : Type := State → Completion A * State.

#[global] Instance Eff_ret : MRet Eff := λ A a st, (Normal a, st).

#[global] Instance Eff_bind : MBind Eff := λ A B f m st,
  match m st with
  | (Normal a, st') => f a st'
  | (Throw e, st') => (Throw e, st')
  end.

Definition setLoading (b : bool) : Eff unit := λ st,
  (Normal tt, {| loading := b; successMsg := successMsg st; error := error st |}).

Definition setSuccessMsg (m : option string) : Eff unit := λ st,
  (Normal tt, {| loading := loading st; successMsg := m; error := error st |}).

Definition setError (m : option JsValue) : Eff unit := λ st,
  (Normal tt, {| loading := loading st; successMsg := successMsg st; error := m |}).

(** A call that returns or throws at once and does not touch the
    component's state. *)
Definition call {A} (c : Completion A) : Eff A := λ st, (c, st).

(** [try { body } catch (err) { handler } finally { finalizer }]: the
    finalizer runs on every path; when the handler throws, the exception
    leaves the statement after the finalizer has run. *)
Definition try_catch_finally {A} (body : Eff A) (handler : JsThrown → Eff A)
    (finalizer : Eff unit) : Eff A := λ st,
  let '(c, st1) :=
    match body st with
    | (Normal a, st') => (Normal a, st')
    | (Throw e, st') => handler e st'
    end in
  match finalizer st1 with
  | (Normal _, st2) => (c, st2)
  | (Throw e, st2) => (Throw e, st2)
  end.

Section handler.

Context {host : JsHost}.

(** [`${v}`] for the status [v], [undefined] when there is none *)
Definition template_status (v : option StatusValue) : string :=
  match v with
  | Some (StatusCode n) => number_to_string n
  | Some (StatusOther printed) => printed
  | None => "undefined"
  end.

(** [`Server error (${axErr.response?.status})`] *)
Definition server_error (st : option StatusValue) : string :=
  "Server error (" +:+ template_status st +:+ ")".

(** The [msg] the [catch] clause computes (lines 31-37). *)
Definition catch_msg (err : JsThrown) : JsValue :=
  let msg := "Upload failed" in
  if truthy err && typeof_object err && in_response err then
    or_else (response_detail err) (server_error (response_status err))
  else if instanceof_error err then
    VString (default "" (error_message_prop err))
  else VString msg.

(** The success text of line 27. *)
Definition success_text (d : UploadDataResponse) : string :=
  "✓ Loaded " +:+ number_to_string (total_files d) +:+ " file"
  +:+ (if (1 <? total_files d)%Z then "s" else "")
  +:+ " (" +:+ toUpperCase (file_type d) +:+ ")".

(** [File]; what other handlers write to the state while this one is
    suspended at its [await] (the drop zone stays enabled, so another drop
    can start or resume then; the identity when none does); [uploadData]
    of [lib/api] (the awaited promise resolves or rejects); and the
    [onUpload] prop. *)
Context {File : Type}.
Variable meanwhile : State → State.
Variable uploadData : File → Completion UploadDataResponse.
Variable onUpload : option (UploadDataResponse → Completion unit).

(** [await p]: the handler is suspended until the promise settles. *)
Definition await {A} (c : Completion A) : Eff A := λ st, (c, meanwhile st).

(** [onUpload?.(data)] *)
Definition call_onUpload (d : UploadDataResponse) : Eff unit :=
  match onUpload with
  | Some f => call (f d)
  | None => mret tt
  end.

Definition onDrop (files : list File) : Eff unit :=
  match files !! 0%nat with
  | None => mret tt
  | Some file =>
      setLoading true;;
      setError None;;
      setSuccessMsg None;;
      try_catch_finally
        (d ← await (uploadData file);
         setSuccessMsg (Some (success_text d));;
         call_onUpload d)
        (λ err, setError (Some (catch_msg err)))
        (setLoading false)
  end.

End handler.

(** The three sources a failure text is described to come from: the
    server's detail string, a description of the server's status, the
    error's own message. *)
Definition listed_message `{JsHost} (err : JsThrown) (msg : string) : Prop :=
  response_detail err = Some (VString msg)
  ∨ (∃ st, msg = server_error st)
  ∨ error_message_prop err = Some msg.

(** A rejected request as axios reports it. *)
Definition axios_error (st : number) (d : option JsValue) : JsThrown :=
  ThrowObject
    {| instanceof_Error := true;
       response := Some (Some {| data := Some {| detail := d |};
                                 status := Some (StatusCode st) |});
       message := Some ("Request failed with status code "
                        +:+ decimal_digits st);
       stack := Some "AxiosError: Request failed at settle (settle.js:19:12)" |}.

(** The detail of a FastAPI validation answer: a list of objects, truthy,
    and not a valid React child. *)
Definition validation_detail : JsValue := VOther true None.

(** Nothing else writes the state during an [await]. *)
Definition idle : State → State := λ st, st.

End DataUploader.

(** ** The conversation session *)

Module ConversationSession.

(** The roles the specification lists for a turn. *)
Definition spec_roles : list string := ["user"; "assistant"; "tool"].

End ConversationSession.

(** ** The agent core: errors *)

(** Modelled from the spec: the error taxonomy of section 7 (the back end
    that raises and maps these errors is not among the sources). *)
Inductive ErrorKind : Type :=
| NotFound
| SchemaError
| ValidationError
| UnknownTool
| Timeout
| ResourceExceeded
| RuntimeFault
| TransportFailure
| StepLimitExceeded.

(** A component's answer: a value or a classified failure with a message. *)
Inductive Result (A : Type) : Type :=
| Ok (a : A)
| Err (k : ErrorKind) (msg : string).
Arguments Ok {A} a.
Arguments Err {A} k msg.

(** ** The tabular store *)

Module TabularStore.

(** Modelled from the spec: the dataset registry of sections 3 and 4.1
    ([backend/store.py] and [services/data_engine.py] are not among the
    sources). Numbers are exact rationals; a cell is null, a number or a
    text. *)
Inductive ColType : Type :=
| TInt
| TFloat
| TText.

Inductive Cell : Type :=
| Null
| Num (q : Q)
| Text (s : string).

Abbreviation Row := (list Cell).

Record ColumnStats : Type := {
  st_null_count : nat;
  st_unique_count : nat;
  st_min : option Q;
  st_max : option Q;
  st_mean : option Q
}.

Record Dataset : Type := {
  ds_id : string;
  ds_name : string;
  ds_schema : list (string * ColType);
  ds_row_count : nat;
  ds_column_stats : list (string * ColumnStats);
  ds_rows : list Row
}.

Abbreviation Store := (gmap string Dataset).

(** An operation of the store: it answers and leaves a store behind. *)
Definition StoreOp (A : Type) : Type := Store → Result A * Store.

(** *** The predicate grammar of [filter]: a column, a comparison
    operator and a literal, combined with AND and OR. *)
Inductive CmpOp : Type :=
| OpEq
| OpNe
| OpLt
| OpLe
| OpGt
| OpGe.

Inductive Literal : Type :=
| LNum (q : Q)
| LText (s : string).

Inductive Predicate : Type :=
| Cmp (col : string) (op : CmpOp) (lit : Literal)
| PAnd (p q : Predicate)
| POr (p q : Predicate).

(** The position of a column in the schema. *)
Fixpoint col_index (schema : list (string * ColType)) (col : string)
    : option nat :=
  match schema with
  | [] => None
  | (c, _) :: rest =>
      if String.eqb c col then Some 0 else S <$> col_index rest col
  end.

Definition col_type (schema : list (string * ColType)) (col : string)
    : option ColType :=
  snd <$> List.find (λ ct, String.eqb (fst ct) col) schema.

(** An operator fits a column: every comparison on a number against a
    number, equality and inequality on a text against a text. *)
Definition compatible (t : ColType) (op : CmpOp) (lit : Literal) : bool :=
  match t, lit with
  | (TInt | TFloat), LNum _ => true
  | TText, LText _ =>
      match op with
      | OpEq | OpNe => true
      | _ => false
      end
  | _, _ => false
  end.

(** The column a predicate refers to that the schema lacks or whose type
    does not fit the operator, if any ([SchemaError]). *)
Fixpoint schema_fault (schema : list (string * ColType)) (p : Predicate)
    : option string :=
  match p with
  | Cmp col op lit =>
      match col_type schema col with
      | Some t => if compatible t op lit then None else Some col
      | None => Some col
      end
  | PAnd p q | POr p q =>
      match schema_fault schema p with
      | Some c => Some c
      | None => schema_fault schema q
      end
  end.

Definition cmp_holds (op : CmpOp) (c : comparison) : bool :=
  match op, c with
  | OpEq, Eq | OpNe, (Lt | Gt) => true
  | OpLt, Lt | OpLe, (Lt | Eq) => true
  | OpGt, Gt | OpGe, (Gt | Eq) => true
  | _, _ => false
  end.

(** A null cell satisfies no comparison. *)
Definition cell_holds (c : Cell) (op : CmpOp) (lit : Literal) : bool :=
  match c, lit with
  | Num a, LNum b => cmp_holds op (Qcompare a b)
  | Text a, LText b =>
      match op with
      | OpEq => String.eqb a b
      | OpNe => negb (String.eqb a b)
      | _ => false
      end
  | _, _ => false
  end.

(** A row satisfies a predicate. *)
Fixpoint holds (schema : list (string * ColType)) (p : Predicate) (r : Row)
    : bool :=
  match p with
  | Cmp col op lit =>
      match col_index schema col with
      | Some i =>
          match r !! i with
          | Some c => cell_holds c op lit
          | None => false
          end
      | None => false
      end
  | PAnd p q => holds schema p r && holds schema q r
  | POr p q => holds schema p r || holds schema q r
  end.

Definition filter_rows (d : Dataset) (p : Predicate) : Result (list Row) :=
  match schema_fault (ds_schema d) p with
  | Some c => Err SchemaError c
  | None => Ok (filter (λ r, holds (ds_schema d) p r) (ds_rows d))
  end.

(** *** What a predicate means

    The meaning of the grammar, stated on the schema and the row without
    reference to how [filter] evaluates it. *)

(** [col] is the column at position [i] of the schema, of type [t]: the
    first column of that name. *)
Definition column_at (schema : list (string * ColType)) (col : string)
    (i : nat) (t : ColType) : Prop :=
  schema !! i = Some (col, t)
  ∧ ∀ j ct, (j < i)%nat → schema !! j = Some ct → ct.1 ≠ col.

(** A comparison is meaningful on a column: any comparison of a number
    with a number, equality and inequality of a text with a text. *)
Inductive fits : ColType → CmpOp → Literal → Prop :=
| fits_int op q : fits TInt op (LNum q)
| fits_float op q : fits TFloat op (LNum q)
| fits_text_eq s : fits TText OpEq (LText s)
| fits_text_ne s : fits TText OpNe (LText s).

(** A valid predicate for a schema: each comparison names a column of
    the schema and is meaningful on it. *)
Inductive valid_for (schema : list (string * ColType)) : Predicate → Prop :=
| valid_cmp col op lit i t :
    column_at schema col i t → fits t op lit →
    valid_for schema (Cmp col op lit)
| valid_and p q :
    valid_for schema p → valid_for schema q → valid_for schema (PAnd p q)
| valid_or p q :
    valid_for schema p → valid_for schema q → valid_for schema (POr p q).

(** A cell stands in the relation an operator names to a literal, in the
    order of the rationals and by equality of texts; a null cell stands
    in none. *)
Inductive cell_satisfies : Cell → CmpOp → Literal → Prop :=
| sat_eq a b : (a == b)%Q → cell_satisfies (Num a) OpEq (LNum b)
| sat_ne a b : ¬ (a == b)%Q → cell_satisfies (Num a) OpNe (LNum b)
| sat_lt a b : (a < b)%Q → cell_satisfies (Num a) OpLt (LNum b)
| sat_le a b : (a <= b)%Q → cell_satisfies (Num a) OpLe (LNum b)
| sat_gt a b : (b < a)%Q → cell_satisfies (Num a) OpGt (LNum b)
| sat_ge a b : (b <= a)%Q → cell_satisfies (Num a) OpGe (LNum b)
| sat_text_eq a : cell_satisfies (Text a) OpEq (LText a)
| sat_text_ne a b : a ≠ b → cell_satisfies (Text a) OpNe (LText b).

(** A row satisfies a predicate. *)
Inductive satisfies (schema : list (string * ColType)) (r : Row)
    : Predicate → Prop :=
| satisfies_cmp col op lit i t c :
    column_at schema col i t → r !! i = Some c → cell_satisfies c op lit →
    satisfies schema r (Cmp col op lit)
| satisfies_and p q :
    satisfies schema r p → satisfies schema r q → satisfies schema r (PAnd p q)
| satisfies_or_l p q : satisfies schema r p → satisfies schema r (POr p q)
| satisfies_or_r p q : satisfies schema r q → satisfies schema r (POr p q).

(** *** Aggregation *)
Inductive AggFn : Type :=
| Sum
| Mean
| Count
| Min
| Max.

Definition agg_fn_name (f : AggFn) : string :=
  match f with
  | Sum => "sum"
  | Mean => "mean"
  | Count => "count"
  | Min => "min"
  | Max => "max"
  end.

Record Table : Type := {
  tb_columns : list string;
  tb_rows : list Row
}.

(** The numbers of a column, nulls left out. *)
Definition numbers_of (i : nat) (rows : list Row) : list Q :=
  omap (λ r : Row, match r !! i with
                   | Some (Num q) => Some q
                   | _ => None
                   end) rows.

Definition Qsum (qs : list Q) : Q := foldr Qplus 0%Q qs.

Definition Qleast (qs : list Q) : option Q :=
  match qs with
  | [] => None
  | q :: rest => Some (foldr (λ a b, if Qle_bool a b then a else b) q rest)
  end.

Definition Qgreatest (qs : list Q) : option Q :=
  match qs with
  | [] => None
  | q :: rest => Some (foldr (λ a b, if Qle_bool a b then b else a) q rest)
  end.

Definition cell_of (o : option Q) : Cell :=
  match o with
  | Some q => Num (Qred q)
  | None => Null
  end.

Definition aggregate_cell (f : AggFn) (qs : list Q) : Cell :=
  match f with
  | Sum => cell_of (Some (Qsum qs))
  | Count => cell_of (Some (inject_Z (Z.of_nat (length qs))))
  | Mean =>
      match qs with
      | [] => Null
      | _ => cell_of (Some (Qsum qs / inject_Z (Z.of_nat (length qs)))%Q)
      end
  | Min => cell_of (Qleast qs)
  | Max => cell_of (Qgreatest qs)
  end.

Definition cell_eqb (a b : Cell) : bool :=
  match a, b with
  | Null, Null => true
  | Num x, Num y => Qeq_bool x y
  | Text x, Text y => String.eqb x y
  | _, _ => false
  end.

Fixpoint key_eqb (a b : list Cell) : bool :=
  match a, b with
  | [], [] => true
  | x :: a', y :: b' => cell_eqb x y && key_eqb a' b'
  | _, _ => false
  end.

(** The cells of a row at the group-by columns. *)
Definition key_of (idx : list nat) (r : Row) : list Cell :=
  (λ i, default Null (r !! i)) <$> idx.

(** A row joins the group of its key, or opens a new one at the end. *)
Fixpoint add_to_group (k : list Cell) (r : Row)
    (groups : list (list Cell * list Row)) : list (list Cell * list Row) :=
  match groups with
  | [] => [(k, [r])]
  | (k', rs) :: rest =>
      if key_eqb k' k then (k', rs ++ [r]) :: rest
      else (k', rs) :: add_to_group k r rest
  end.

Definition group_rows (idx : list nat) (rows : list Row)
    : list (list Cell * list Row) :=
  match idx with
  | [] => [([], rows)]
  | _ => foldl (λ groups r, add_to_group (key_of idx r) r groups) [] rows
  end.

Definition aggregate_table (d : Dataset) (group_by : list string)
    (agg : list (string * AggFn)) : Result Table :=
  match mapM (col_index (ds_schema d)) group_by,
        mapM (λ ca, col_index (ds_schema d) (fst ca)) agg with
  | Some gidx, Some aidx =>
      Ok {| tb_columns :=
              group_by ++ ((λ ca, fst ca +:+ "_" +:+ agg_fn_name (snd ca)) <$> agg);
            tb_rows :=
              (λ g, fst g ++ zip_with (λ i ca, aggregate_cell (snd ca)
                                                 (numbers_of i (snd g)))
                             aidx agg)
              <$> group_rows gidx (ds_rows d) |}
  | _, _ => Err SchemaError "no such column"
  end.

(** *** The operations of the contract *)

(** Modelled from the spec: [put(dataset) -> id], replace-by-id. *)
Definition put (d : Dataset) : StoreOp string := λ s,
  (Ok (ds_id d), <[ds_id d := d]> s).

(** Modelled from the spec: the explicit delete of a dataset. *)
Definition delete_dataset (id : string) : StoreOp unit := λ s,
  match s !! id with
  | Some _ => (Ok (), delete id s)
  | None => (Err NotFound id, s)
  end.

(** Modelled from the spec: [get(id) -> Dataset | NotFound]. *)
Definition get (id : string) : StoreOp Dataset := λ s,
  (match s !! id with
   | Some d => Ok d
   | None => Err NotFound id
   end, s).

(** A dataset's summary: id, name and row count. *)
Definition summary (d : Dataset) : string * string * nat :=
  (ds_id d, ds_name d, ds_row_count d).

(** Modelled from the spec: [list() -> sequence of dataset summaries]. *)
Definition list_datasets : StoreOp (list (string * string * nat)) := λ s,
  (Ok (summary <$> (snd <$> map_to_list s)), s).

(** Modelled from the spec: [describe(id, columns?) -> per-column
    statistics]; a column the schema lacks is a [SchemaError]. *)
Definition describe (id : string) (cols : option (list string))
    : StoreOp (list (string * ColumnStats)) := λ s,
  (match s !! id with
   | None => Err NotFound id
   | Some d =>
       match cols with
       | None => Ok (ds_column_stats d)
       | Some cs =>
           match List.find (λ c, bool_decide (col_type (ds_schema d) c = None)) cs with
           | Some c => Err SchemaError c
           | None =>
               Ok (List.filter (λ cst, bool_decide (fst cst ∈ cs))
                     (ds_column_stats d))
           end
       end
   end, s).

Section with_parser.

(** The concrete syntax of a predicate expression is left open; [parse]
    reads the text and fails on a malformed one ([ValidationError]). *)
Variable parse : string → option Predicate.

(** Modelled from the spec: [filter(id, predicate_expression) -> derived
    row subset]; it answers with rows of its own and hands the store on
    as it is. *)
Definition filter (id expr : string) : StoreOp (list Row) := λ s,
  (match s !! id with
   | None => Err NotFound id
   | Some d =>
       match parse expr with
       | None => Err ValidationError expr
       | Some p => filter_rows d p
       end
   end, s).

End with_parser.

(** Modelled from the spec: [aggregate(id, group_by columns, agg spec)
    -> derived table]. *)
Definition aggregate (id : string) (group_by : list string)
    (agg : list (string * AggFn)) : StoreOp Table := λ s,
  (match s !! id with
   | None => Err NotFound id
   | Some d => aggregate_table d group_by agg
   end, s).

(** The requests the store serves, and the store each leaves behind. *)
Inductive StoreRequest : Type :=
| ReqPut (d : Dataset)
| ReqDelete (id : string)
| ReqGet (id : string)
| ReqList
| ReqDescribe (id : string) (cols : option (list string))
| ReqFilter (id expr : string)
| ReqAggregate (id : string) (group_by : list string)
    (agg : list (string * AggFn)).

Definition store_after (parse : string → option Predicate) (rq : StoreRequest)
    (s : Store) : Store :=
  match rq with
  | ReqPut d => (put d s).2
  | ReqDelete id => (delete_dataset id s).2
  | ReqGet id => (get id s).2
  | ReqList => (list_datasets s).2
  | ReqDescribe id cols => (describe id cols s).2
  | ReqFilter id expr => (filter parse id expr s).2
  | ReqAggregate id group_by agg => (aggregate id group_by agg s).2
  end.

Definition store_after_all (parse : string → option Predicate)
    (rqs : list StoreRequest) (s : Store) : Store :=
  foldl (λ s' rq, store_after parse rq s') s rqs.

(** The request writes the dataset [id]: it puts a dataset under that id
    or deletes it. *)
Definition writes_to (id : string) (rq : StoreRequest) : Prop :=
  match rq with
  | ReqPut d => ds_id d = id
  | ReqDelete id' => id' = id
  | _ => False
  end.

(** The dataset of the specification's scenario: columns [age:int] and
    [gene_A:float], three rows. *)
Definition scenario_ds1 : Dataset :=
  {| ds_id := "ds1";
     ds_name := "ds1";
     ds_schema := [("age", TInt); ("gene_A", TFloat)];
     ds_row_count := 3;
     ds_column_stats :=
       [("age", {| st_null_count := 0; st_unique_count := 3;
                   st_min := Some 30%Q; st_max := Some 70%Q;
                   st_mean := Some 50%Q |})];
     ds_rows := [[Num 30; Num 0.5]; [Num 50; Num 0.9]; [Num 70; Num 0.2]] |}.

(** A reader that knows the scenario's expression only. *)
Definition scenario_parse (expr : string) : option Predicate :=
  if String.eqb expr "gene_A > 0.4" then Some (Cmp "gene_A" OpGt (LNum 0.4))
  else None.

End TabularStore.

(** ** The tool registry *)

Module ToolRegistry.
Import TabularStore.

(** Modelled from the spec: the tool declarations and [dispatch] of
    section 4.3 ([services/llm.py] is not among the sources). The
    arguments of a call are the fields of a JSON object. *)
Inductive Json : Type :=
| JNull
| JBool (b : bool)
| JNum (q : Q)
| JStr (s : string)
| JArr (items : list Json)
| JObj (fields : list (string * Json)).

Record ToolCall : Type := {
  tc_name : string;
  tc_arguments : list (string * Json);
  tc_call_id : string
}.

Inductive Status : Type :=
| StatusOk
| StatusError.

Record ToolResult : Type := {
  tr_call_id : string;
  tr_status : Status;
  tr_payload : Json;
  tr_error_kind : option ErrorKind
}.

(** *** Argument schemas *)
Inductive JType : Type :=
| TyString
| TyNumber
| TyInteger
| TyBoolean
| TyArray
| TyObject.

Record Field : Type := {
  f_name : string;
  f_type : JType;
  f_required : bool;
  f_choices : option (list string)
}.

Definition is_integer (q : Q) : bool :=
  (Z.pos (Qden (Qred q)) =? 1)%Z.

Definition has_type (t : JType) (v : Json) : bool :=
  match t, v with
  | TyString, JStr _ => true
  | TyNumber, JNum _ => true
  | TyInteger, JNum q => is_integer q
  | TyBoolean, JBool _ => true
  | TyArray, JArr _ => true
  | TyObject, JObj _ => true
  | _, _ => false
  end.

Definition in_choices (choices : option (list string)) (v : Json) : bool :=
  match choices, v with
  | None, _ => true
  | Some cs, JStr s => bool_decide (s ∈ cs)
  | Some _, _ => false
  end.

(** The value of an argument, the first when a name repeats. *)
Definition arg (args : list (string * Json)) (k : string) : option Json :=
  snd <$> List.find (λ kv, String.eqb (fst kv) k) args.

(** A declared field is satisfied: absent and optional, or present with
    the declared type and, where choices are enumerated, one of them. *)
Definition field_ok (args : list (string * Json)) (f : Field) : bool :=
  match arg args (f_name f) with
  | None => negb (f_required f)
  | Some v => has_type (f_type f) v && in_choices (f_choices f) v
  end.

(** The first declared field the arguments violate, if any. *)
Definition validate (schema : list Field) (args : list (string * Json))
    : option string :=
  f_name <$> List.find (λ f, negb (field_ok args f)) schema.

(** *** Tools *)

(** How the component behind a tool ends: with a payload, with a
    classified failure, or by raising. *)
Inductive Outcome : Type :=
| Returned (payload : Json)
| Failed (k : ErrorKind) (msg : string)
| Raised (what : string).

Record Tool : Type := {
  tool_name : string;
  tool_description : string;
  tool_schema : list Field;
  (** the argument that names a dataset, for the tools that read one *)
  tool_dataset_field : option string;
  tool_run : list (string * Json) → Store → Outcome
}.

Definition find_tool (registry : list Tool) (nm : string) : option Tool :=
  List.find (λ t, String.eqb (tool_name t) nm) registry.

(** The dataset id a call refers to. *)
Definition dataset_ref (t : Tool) (args : list (string * Json))
    : option string :=
  f ← tool_dataset_field t;
  match arg args f with
  | Some (JStr id) => Some id
  | _ => None
  end.

(** The bounded preview of a payload: at most [limit] rows or items, at
    most [limit] characters of text. *)
Definition truncate (limit : nat) (payload : Json) : Json :=
  match payload with
  | JArr items => JArr (take limit items)
  | JStr s => JStr (String.substring 0 limit s)
  | JObj fields =>
      JObj ((λ kv, (fst kv, match snd kv with
                            | JArr items => JArr (take limit items)
                            | v => v
                            end)) <$> fields)
  | v => v
  end.

Definition error_result (call : ToolCall) (k : ErrorKind) (detail : Json)
    : ToolResult :=
  {| tr_call_id := tc_call_id call;
     tr_status := StatusError;
     tr_payload := detail;
     tr_error_kind := Some k |}.

Definition ok_result (call : ToolCall) (payload : Json) : ToolResult :=
  {| tr_call_id := tc_call_id call;
     tr_status := StatusOk;
     tr_payload := payload;
     tr_error_kind := None |}.

(** The detail of a validation failure names the field. *)
Definition invalid_field (f : string) : Json :=
  JObj [("error", JStr "missing or invalid argument"); ("field", JStr f)].

(** Steps 3 and 4: the component's outcome as a result. A payload is cut
    to the preview size, a classified failure keeps its kind, and whatever
    the component raises is caught here as a [RuntimeFault]. *)
Definition classify (call : ToolCall) (preview_limit : nat) (o : Outcome)
    : ToolResult :=
  match o with
  | Returned p => ok_result call (truncate preview_limit p)
  | Failed k msg => error_result call k (JStr msg)
  | Raised what => error_result call RuntimeFault (JStr what)
  end.

(** Modelled from the spec: [dispatch(tool_call) -> ToolResult], steps 1
    to 4 of section 4.3, with the dataset check of section 3 before the
    tool runs. *)
Definition dispatch (registry : list Tool) (preview_limit : nat) (store : Store)
    (call : ToolCall) : ToolResult :=
  match find_tool registry (tc_name call) with
  | None => error_result call UnknownTool (JStr (tc_name call))
  | Some t =>
      match validate (tool_schema t) (tc_arguments call) with
      | Some f => error_result call ValidationError (invalid_field f)
      | None =>
          match dataset_ref t (tc_arguments call) with
          | Some id =>
              match store !! id with
              | None => error_result call NotFound (JStr id)
              | Some _ =>
                  classify call preview_limit
                    (tool_run t (tc_arguments call) store)
              end
          | None =>
              classify call preview_limit (tool_run t (tc_arguments call) store)
          end
      end
  end.

(** *** What a declaration asks of a call

    The conditions of section 4.3 on a call, stated on the registry, the
    schema and the arguments without reference to how [dispatch] checks
    them. *)

(** The registry declares [t] under the name [nm]: the first tool of
    that name. *)
Inductive declares : list Tool → string → Tool → Prop :=
| declares_here t rest : declares (t :: rest) (tool_name t) t
| declares_later t t' rest nm :
    tool_name t' ≠ nm → declares rest nm t → declares (t' :: rest) nm t.

(** The arguments bind the name [k] to [v]: the first pair of that
    name. *)
Inductive binds : list (string * Json) → string → Json → Prop :=
| binds_here k v rest : binds ((k, v) :: rest) k v
| binds_later k v k' v' rest :
    k' ≠ k → binds rest k v → binds ((k', v') :: rest) k v.

(** A value has a declared type; an integer is a number equal to a whole
    number. *)
Inductive well_typed : JType → Json → Prop :=
| wt_string s : well_typed TyString (JStr s)
| wt_number q : well_typed TyNumber (JNum q)
| wt_integer q n : (q == inject_Z n)%Q → well_typed TyInteger (JNum q)
| wt_boolean b : well_typed TyBoolean (JBool b)
| wt_array items : well_typed TyArray (JArr items)
| wt_object fields : well_typed TyObject (JObj fields).

(** The arguments violate a declared field: it is required and missing,
    or its value has another type than the declared one, or its value is
    none of the enumerated choices. *)
Inductive violates (args : list (string * Json)) (fd : Field) : Prop :=
| violates_missing :
    f_required fd = true → (∀ v, ¬ binds args (f_name fd) v) →
    violates args fd
| violates_type v :
    binds args (f_name fd) v → ¬ well_typed (f_type fd) v →
    violates args fd
| violates_choice v cs :
    binds args (f_name fd) v → f_choices fd = Some cs →
    (∀ s, s ∈ cs → v ≠ JStr s) →
    violates args fd.

(** The detail of a result names the field [f]. *)
Definition names_field (payload : Json) (f : string) : Prop :=
  ∃ fields, payload = JObj fields ∧ ("field", JStr f) ∈ fields.

(** *** The declared tools *)

Definition required (nm : string) (t : JType) : Field :=
  {| f_name := nm; f_type := t; f_required := true; f_choices := None |}.

Definition optional (nm : string) (t : JType) : Field :=
  {| f_name := nm; f_type := t; f_required := false; f_choices := None |}.

Definition plot_types : list string :=
  ["bar"; "pie"; "scatter"; "line"; "histogram"; "box"].

Definition json_of_cell (c : Cell) : Json :=
  match c with
  | Null => JNull
  | Num q => JNum q
  | Text s => JStr s
  end.

Definition json_of_rows (rows : list Row) : Json :=
  JArr ((λ r, JArr (json_of_cell <$> r)) <$> rows).

Definition outcome_of {A} (to_json : A → Json) (r : Result A) : Outcome :=
  match r with
  | Ok a => Returned (to_json a)
  | Err k msg => Failed k msg
  end.

Definition string_arg (args : list (string * Json)) (k : string) : string :=
  match arg args k with
  | Some (JStr s) => s
  | _ => ""
  end.

(** The texts of an array argument. *)
Definition strings_of (v : Json) : list string :=
  match v with
  | JArr items => omap (λ j, match j with JStr s => Some s | _ => None end) items
  | _ => []
  end.

Definition agg_fn_of (nm : string) : option AggFn :=
  List.find (λ f, String.eqb (agg_fn_name f) nm) [Sum; Mean; Count; Min; Max].

(** The aggregation spec of an object argument, column to function name. *)
Definition agg_spec_of (v : Json) : option (list (string * AggFn)) :=
  match v with
  | JObj fields =>
      mapM (λ kv, match snd kv with
                  | JStr nm => pair (fst kv) <$> agg_fn_of nm
                  | _ => None
                  end) fields
  | _ => None
  end.

Definition json_of_option (o : option Q) : Json :=
  match o with
  | Some q => JNum q
  | None => JNull
  end.

Definition json_of_stats (stats : list (string * ColumnStats)) : Json :=
  JObj ((λ cs, (fst cs,
                JObj [("null_count", JNum (inject_Z (Z.of_nat (st_null_count (snd cs)))));
                      ("unique_count", JNum (inject_Z (Z.of_nat (st_unique_count (snd cs)))));
                      ("min", json_of_option (st_min (snd cs)));
                      ("max", json_of_option (st_max (snd cs)));
                      ("mean", json_of_option (st_mean (snd cs)))]))
        <$> stats).

Definition json_of_table (t : Table) : Json :=
  JObj [("columns", JArr (JStr <$> tb_columns t));
        ("rows", json_of_rows (tb_rows t))].

Section tools.

(** The predicate reader of the store, and the components the registry
    does not own: plotting, the knowledge base, the sandbox. *)
Variable parse : string → option Predicate.
Variable plot : list (string * Json) → Store → Outcome.
Variable search : list (string * Json) → Outcome.
Variable sandbox_execute : Dataset → string → Outcome.

Definition filter_data : Tool :=
  {| tool_name := "filter_data";
     tool_description := "Filter the rows of a dataset with a predicate";
     tool_schema := [required "dataset_id" TyString; required "query" TyString];
     tool_dataset_field := Some "dataset_id";
     tool_run := λ args store,
       outcome_of json_of_rows
         (TabularStore.filter parse (string_arg args "dataset_id")
            (string_arg args "query") store).1 |}.

Definition aggregate_data : Tool :=
  {| tool_name := "aggregate_data";
     tool_description := "Group the rows of a dataset and aggregate columns";
     tool_schema := [required "dataset_id" TyString; required "group_by" TyArray;
                     required "agg" TyObject];
     tool_dataset_field := Some "dataset_id";
     tool_run := λ args store,
       match agg_spec_of (default JNull (arg args "agg")) with
       | None => Failed ValidationError "agg"
       | Some spec =>
           outcome_of json_of_table
             (aggregate (string_arg args "dataset_id")
                (strings_of (default JNull (arg args "group_by"))) spec store).1
       end |}.

Definition describe_data : Tool :=
  {| tool_name := "describe_data";
     tool_description := "Per-column statistics of a dataset";
     tool_schema := [required "dataset_id" TyString; optional "columns" TyArray];
     tool_dataset_field := Some "dataset_id";
     tool_run := λ args store,
       outcome_of json_of_stats
         (describe (string_arg args "dataset_id")
            (strings_of <$> arg args "columns") store).1 |}.

Definition generate_plot : Tool :=
  {| tool_name := "generate_plot";
     tool_description := "Build a chart specification from a dataset";
     tool_schema :=
       [required "dataset_id" TyString;
        {| f_name := "plot_type"; f_type := TyString; f_required := true;
           f_choices := Some plot_types |};
        required "x" TyString; optional "y" TyString];
     tool_dataset_field := Some "dataset_id";
     tool_run := plot |}.

Definition search_documents : Tool :=
  {| tool_name := "search_documents";
     tool_description := "Search the indexed documents";
     tool_schema := [required "query" TyString; optional "top_k" TyInteger];
     tool_dataset_field := None;
     tool_run := λ args _, search args |}.

Definition run_code : Tool :=
  {| tool_name := "run_code";
     tool_description := "Run a code snippet against one dataset";
     tool_schema := [required "dataset_id" TyString; required "code" TyString];
     tool_dataset_field := Some "dataset_id";
     tool_run := λ args store,
       match store !! string_arg args "dataset_id" with
       | Some d => sandbox_execute d (string_arg args "code")
       | None => Failed NotFound (string_arg args "dataset_id")
       end |}.

Definition tools : list Tool :=
  [filter_data; aggregate_data; describe_data; generate_plot;
   search_documents; run_code].

End tools.

(** Components that answer nothing of interest, for concrete calls. *)
Definition no_plot : list (string * Json) → Store → Outcome :=
  λ _ _, Returned (JObj []).
Definition empty_search : list (string * Json) → Outcome :=
  λ _, Returned (JArr []).
Definition faulty_sandbox : Dataset → string → Outcome :=
  λ _ _, Raised "ZeroDivisionError".

Definition scenario_tools : list Tool :=
  tools scenario_parse no_plot empty_search faulty_sandbox.

Definition call_of (nm : string) (args : list (string * Json)) : ToolCall :=
  {| tc_name := nm; tc_arguments := args; tc_call_id := "call-1" |}.

End ToolRegistry.

(** ** The orchestrator *)

Module Orchestrator.
Import ToolRegistry.

(** Modelled from the spec: the state machine of section 4.4
    ([services/llm.py] and the chat router are not among the sources). The
    LLM transport is a function of the history that may fail; [dispatch]
    is the registry's. *)
Inductive Turn : Type :=
| UserTurn (text : string)
| AssistantTurn (text : string) (calls : list ToolCall)
| ToolTurn (result : ToolResult).

(** [send(history, tool_schemas) -> {text?, tool_calls?}] *)
Record ModelResponse : Type := {
  resp_text : option string;
  resp_tool_calls : list ToolCall
}.

(** The user-visible answer of a turn. *)
Record Answer : Type := {
  answer_text : string;
  answer_attachment : option Json;
  step_limit_exceeded : bool;
  transport_failure : bool
}.

Inductive Phase : Type :=
| AwaitingUserInput
| ModelTurn
| ToolDispatch (calls : list ToolCall)
| FinalAnswer (a : Answer).

Record State : Type := {
  phase : Phase;
  history : list Turn;
  (** tool round-trips of the current user turn *)
  steps : nat;
  (** the most recent table or plot payload of the current user turn *)
  latest : option Json
}.

(** A table or a plot specification, as opposed to text. *)
Definition attachable (p : Json) : bool :=
  match p with
  | JArr _ | JObj _ => true
  | _ => false
  end.

Definition attachment_of (r : ToolResult) : option Json :=
  match tr_status r with
  | StatusOk => if attachable (tr_payload r) then Some (tr_payload r) else None
  | StatusError => None
  end.

(** The most recent attachment after a batch of results. *)
Definition latest_after (old : option Json) (results : list ToolResult)
    : option Json :=
  foldl (λ acc r, match attachment_of r with
                  | Some p => Some p
                  | None => acc
                  end) old results.

(** An assistant turn that asks for tools: one dispatch round. *)
Definition asks_tools (t : Turn) : bool :=
  match t with
  | AssistantTurn _ (_ :: _) => true
  | _ => false
  end.

Definition dispatch_rounds (h : list Turn) : nat :=
  length (base.filter (λ t, asks_tools t) h).

Definition is_final (p : Phase) : bool :=
  match p with
  | FinalAnswer _ => true
  | _ => false
  end.

(** Modelled from the spec: the role a turn of the history is recorded
    under. *)
Definition turn_role (t : Turn) : string :=
  match t with
  | UserTurn _ => "user"
  | AssistantTurn _ _ => "assistant"
  | ToolTurn _ => "tool"
  end.

(** A session that holds no turn yet. *)
Definition idle : State :=
  {| phase := AwaitingUserInput; history := []; steps := 0; latest := None |}.

(** Modelled from the spec: what the surrounding application asks of a
    session, [handle_message(session_id, text)] or
    [ConversationSession.clear(session_id)]. *)
Inductive Request : Type :=
| Message (text : string)
| Reset.

#[global] Instance Request_eq_dec : EqDecision Request.
Proof. solve_decision. Defined.

Section machine.

Variable send : list Turn → option ModelResponse.
Variable dispatch : ToolCall → ToolResult.
Variable max_steps : nat.

Definition finish (st : State) (a : Answer) : State :=
  {| phase := FinalAnswer a; history := history st;
     steps := steps st; latest := latest st |}.

(** [AwaitingUserInput → ModelTurn]: a new message is appended and the
    step counter of the turn starts at zero. *)
Definition receive (text : string) (st : State) : State :=
  {| phase := ModelTurn; history := history st ++ [UserTurn text];
     steps := 0; latest := None |}.

(** Modelled from the spec: one transition of the machine of section
    4.4. A response with tool calls is dispatched while the step counter
    is below the maximum and forces the flagged final answer otherwise. *)
Definition step (st : State) : State :=
  match phase st with
  | AwaitingUserInput => st
  | FinalAnswer _ => st
  | ModelTurn =>
      match send (history st) with
      | None =>
          finish st {| answer_text := "The language model could not be reached";
                       answer_attachment := None;
                       step_limit_exceeded := false;
                       transport_failure := true |}
      | Some r =>
          match resp_tool_calls r with
          | [] =>
              finish st {| answer_text := default "" (resp_text r);
                           answer_attachment := latest st;
                           step_limit_exceeded := false;
                           transport_failure := false |}
          | calls =>
              if decide (steps st < max_steps) then
                {| phase := ToolDispatch calls;
                   history := history st
                              ++ [AssistantTurn (default "" (resp_text r)) calls];
                   steps := steps st; latest := latest st |}
              else
                finish st {| answer_text :=
                               default "Stopped: too many tool calls"
                                 (resp_text r);
                             answer_attachment := latest st;
                             step_limit_exceeded := true;
                             transport_failure := false |}
          end
      end
  | ToolDispatch calls =>
      let results := dispatch <$> calls in
      {| phase := ModelTurn;
         history := history st ++ (ToolTurn <$> results);
         steps := S (steps st);
         latest := latest_after (latest st) results |}
  end.

(** Transitions until the final answer, at most [fuel] of them. *)
Fixpoint run (fuel : nat) (st : State) : State :=
  match fuel with
  | 0 => st
  | S fuel' => if is_final (phase st) then st else run fuel' (step st)
  end.

(** Modelled from the spec: [handle_message(session_id, text)]. Every
    round takes two transitions, the final answer one more. *)
Definition handle_message (text : string) (st : State) : State :=
  run (2 * max_steps + 1) (receive text st).

(** What holds of every state of a turn that started from the history
    [base] (the earlier history and the new user message): the counter is
    within the limit, a dispatch is only entered below it, the rounds
    recorded in the history since [base] are the counted ones, and an
    answer flagged for the step limit is given at the limit. *)
Definition turn_inv (base : list Turn) (st : State) : Prop :=
  (steps st ≤ max_steps)%nat
  ∧ phase st ≠ AwaitingUserInput
  ∧ (∀ calls, phase st = ToolDispatch calls → (steps st < max_steps)%nat)
  ∧ (∃ new, history st = base ++ new
            ∧ dispatch_rounds new
              = (steps st + (if phase st is ToolDispatch _ then 1 else 0))%nat)
  ∧ (∀ a, phase st = FinalAnswer a →
          step_limit_exceeded a = true → steps st = max_steps).

(** What a final answer says about the response it was made from, the
    response to the history the turn ended with: it is flagged for the
    step limit exactly when that response asks for tools, it reports a
    transport failure exactly when there was no response, and it carries
    the text of a response that asks for none. *)
Definition answer_inv (st : State) : Prop :=
  ∀ a, phase st = FinalAnswer a →
    (step_limit_exceeded a = true
     ↔ ∃ r, send (history st) = Some r ∧ resp_tool_calls r ≠ [])
    ∧ (transport_failure a = true ↔ send (history st) = None)
    ∧ (∀ r, send (history st) = Some r → resp_tool_calls r = [] →
            answer_text a = default "" (resp_text r)
            ∧ answer_attachment a = latest st).

(** The transitions a state is away from its final answer, at most. *)
Definition distance (st : State) : nat :=
  match phase st with
  | AwaitingUserInput | FinalAnswer _ => 0
  | ModelTurn => 2 * (max_steps - steps st) + 1
  | ToolDispatch _ => 2 * (max_steps - steps st)
  end.

(** Modelled from the spec: a session over the requests it receives. A
    message runs a turn on the history so far; a reset leaves a session
    that holds no turn. *)
Definition serve (st : State) (rq : Request) : State :=
  match rq with
  | Message text => handle_message text st
  | Reset => idle
  end.

Definition serve_all (st : State) (rqs : list Request) : State :=
  foldl serve st rqs.

End machine.

(** A model that asks for a tool in each of its first [n] responses of a
    turn and answers in text after that. *)
Definition asks_n_times (n : nat) (call : ToolCall) (h : list Turn)
    : option ModelResponse :=
  if decide (dispatch_rounds h < n) then
    Some {| resp_text := None; resp_tool_calls := [call] |}
  else Some {| resp_text := Some "done"; resp_tool_calls := [] |}.

(** The registry's [dispatch] over the declared tools and a store that
    holds the scenario's dataset. *)
Definition scenario_dispatch : ToolCall → ToolResult :=
  dispatch scenario_tools 50 {[ "ds1" := TabularStore.scenario_ds1 ]}.

Definition scenario_call : ToolCall :=
  call_of "describe_data" [("dataset_id", JStr "ds1")].

End Orchestrator.

(** ** The sidebar of the page: the dataset list and its panels *)

Module Sidebar.
Import Home.

(** The list the [useEffect] sets after [listDatasets()]:
    [(res.datasets || []).map(...)]; a response without [datasets] counts
    as the empty list. *)
Definition initial_datasets (datasets : option (list DatasetMeta))
    : datasets_state :=
  of_meta <$> default [] datasets.

(** The click handler of a dataset's button:
    [setExpandedDataset(expandedDataset === d.file_id ? null : d.file_id)]. *)
Definition toggle_expanded (expandedDataset : option string)
    (d : UploadedFileInfo) : option string :=
  if decide (expandedDataset = Some (file_id d)) then None
  else Some (file_id d).

(** [expandedDataset === d.file_id] *)
Definition is_expanded (expandedDataset : option string)
    (d : UploadedFileInfo) : bool :=
  bool_decide (expandedDataset = Some (file_id d)).

(** The entries of the list that render their panel. *)
Definition expanded_panels (datasets : datasets_state)
    (expandedDataset : option string) : list UploadedFileInfo :=
  filter (λ d, is_expanded expandedDataset d) datasets.

(** *** The figures of a panel (lines 102-106) *)

(** [d.column_info.reduce((s, c) => s + c.null_count, 0)] *)
Definition totalNulls (d : UploadedFileInfo) : number :=
  foldl (λ s c, (s + null_count c)%Z) 0%Z (column_info d).

(** [d.row_count * d.columns.length] *)
Definition totalCells (d : UploadedFileInfo) : number :=
  (row_count d * Z.of_nat (length (columns d)))%Z.

(** [c.min != null || c.max != null || c.mean != null] *)
Definition has_range (c : ColumnInfo) : bool :=
  bool_decide (min c ≠ None) || bool_decide (max c ≠ None)
  || bool_decide (mean c ≠ None).

Definition numericCols (d : UploadedFileInfo) : number :=
  Z.of_nat (length (filter (λ c, has_range c) (column_info d))).

(** [d.columns.length - numericCols] *)
Definition textCols (d : UploadedFileInfo) : number :=
  (Z.of_nat (length (columns d)) - numericCols d)%Z.

(** The rows of the Numeric Ranges section, shown when [numericCols > 0]. *)
Definition numeric_ranges (d : UploadedFileInfo) : option (list ColumnInfo) :=
  if decide (0 < numericCols d)%Z then
    Some (filter (λ c, has_range c) (column_info d))
  else None.

(** *** Columns with missing data (lines 171-201) *)

(** [.sort((a, b) => b.null_count - a.null_count)]: the sort is stable, so
    its result is the one of inserting each element, from the last to the
    first, in front of the first element that has no more nulls than it. *)
Fixpoint insert_desc (c : ColumnInfo) (l : list ColumnInfo)
    : list ColumnInfo :=
  match l with
  | [] => [c]
  | y :: l' =>
      if (null_count c <? null_count y)%Z then y :: insert_desc c l'
      else c :: l
  end.

Definition sort_desc (l : list ColumnInfo) : list ColumnInfo :=
  foldr insert_desc [] l.

(** [d.column_info.filter(c => c.null_count > 0).sort(...)] *)
Definition missing_columns (d : UploadedFileInfo) : list ColumnInfo :=
  sort_desc (filter (λ c, (0 < null_count c)%Z) (column_info d)).

(** The rows of the section, shown when [totalNulls > 0]. *)
Definition null_warnings (d : UploadedFileInfo) : option (list ColumnInfo) :=
  if decide (0 < totalNulls d)%Z then Some (missing_columns d) else None.

(** [d.preview.length > 0] *)
Definition preview_shown (d : UploadedFileInfo) : bool :=
  bool_decide (0 < length (preview d)).

(** The [datasets] state after the page handled a sequence of upload
    responses, each through the updater of [handleDataUpload]. *)
Definition after_uploads (responses : list UploadDataResponse)
    (datasets : datasets_state) : datasets_state :=
  foldl (λ prev data, handleDataUpload data prev) datasets responses.

(** A column with the given name and null count, and no range. *)
Definition column (nm : string) (nulls : number) : ColumnInfo :=
  {| name := nm; dtype := "object"; null_count := nulls; unique_count := 0%Z;
     sample_values := []; min := None; max := None; mean := None |}.

(** An uploaded file with the given columns and three rows. *)
Definition file_with (id : string) (cols : list ColumnInfo) : UploadedFileInfo :=
  {| file_id := id; filename := id +:+ ".csv"; columns := name <$> cols;
     column_info := cols; row_count := 3%Z; preview := [] |}.

End Sidebar.

(** ** What the drop zone renders *)

Module DropZoneView.
Import DataUploader.

(** What stands in the place of [{x && <p>{x}</p>}]: nothing, the value
    itself as a bare child when it is falsy, the paragraph with the value
    as its child when it is truthy; React throws while rendering the
    component when the value is no valid child. *)
Inductive Slot : Type :=
| Blank
| Bare (text : string)
| Paragraph (text : string)
| RenderFault.

Definition slot (x : option JsValue) : Slot :=
  match x with
  | None => Blank
  | Some v =>
      match child_text v with
      | None => RenderFault
      | Some t =>
          if js_truthy v then Paragraph t
          else if String.eqb t "" then Blank else Bare t
      end
  end.

(** The parts of the component's output that depend on its state (lines
    69-84): the text [Uploading…] in place of the prompt, and what stands
    in the places of the error and of the success paragraph. *)
Record View : Type := {
  uploading : bool;
  error_slot : Slot;
  success_slot : Slot
}.

Definition render (st : State) : View :=
  {| uploading := loading st;
     error_slot := slot (error st);
     success_slot := slot (VString <$> successMsg st) |}.

(** The user sees the text [s] as the error of the drop zone: the state
    holds it and the error paragraph is rendered with it. *)
Definition shows_error (st : State) (s : string) : Prop :=
  error st = Some (VString s) ∧ error_slot (render st) = Paragraph s.

End DropZoneView.

(* ================================================================== *)
(** * Properties *)

(** ** The dashboard page *)

Section home_facts.
Import Home.

Implicit Types (data : UploadDataResponse) (prev ds : datasets_state)
               (d f : UploadedFileInfo).

Lemma elem_of_newIds data i :
  i ∈ newIds data ↔ i ∈ file_id <$> files data.
Proof. unfold newIds. by rewrite elem_of_list_to_set. Qed.

(** What survives of the previous list: the entries whose id the
    response does not carry. *)
Lemma elem_of_kept data prev d :
  d ∈ filter (λ d, file_id d ∉ newIds data) prev
  ↔ d ∈ prev ∧ file_id d ∉ file_id <$> files data.
Proof. rewrite list_elem_of_filter, elem_of_newIds. tauto. Qed.

Lemma kept_ids_NoDup data prev :
  NoDup (file_id <$> prev) →
  NoDup (file_id <$> filter (λ d, file_id d ∉ newIds data) prev).
Proof.
  induction prev as [|d prev IH]; [constructor|].
  rewrite fmap_cons. intros Hnd. apply NoDup_cons in Hnd as [Hd Hnd].
  rewrite filter_cons. case_decide; [|by apply IH].
  rewrite fmap_cons. apply NoDup_cons. split; [|by apply IH].
  intros Hin. apply Hd.
  apply list_elem_of_fmap in Hin as (d' & Heq & Hin).
  apply list_elem_of_filter in Hin as [_ Hin].
  apply list_elem_of_fmap. eauto.
Qed.

Lemma handleDataUpload_ids data prev :
  file_id <$> handleDataUpload data prev
  = (file_id <$> filter (λ d, file_id d ∉ newIds data) prev)
    ++ (file_id <$> files data).
Proof. unfold handleDataUpload. by rewrite fmap_app. Qed.

(** A response's own duplicates survive: the result has unique ids only
    if the response has. *)
Lemma handleDataUpload_NoDup_inv data prev :
  NoDup (file_id <$> handleDataUpload data prev) →
  NoDup (file_id <$> files data).
Proof.
  rewrite handleDataUpload_ids. intros H.
  by apply NoDup_app in H as (_ & _ & H).
Qed.

(** C9, as amended: when the ids of the previous list are unique and the
    ids of the response's files are pairwise distinct, the list
    [handleDataUpload] builds has unique ids; it consists of the previous
    entries whose id the response does not carry, followed by the
    response's files. *)
Theorem handleDataUpload_unique_ids data prev :
  NoDup (file_id <$> prev) →
  NoDup (file_id <$> files data) →
  NoDup (file_id <$> handleDataUpload data prev)
  ∧ (∀ d, d ∈ handleDataUpload data prev
          ↔ (d ∈ prev ∧ file_id d ∉ file_id <$> files data) ∨ d ∈ files data)
  ∧ files data `suffix_of` handleDataUpload data prev.
Proof.
  intros Hprev Hnew. split; [|split].
  - rewrite handleDataUpload_ids. apply NoDup_app.
    split; [by apply kept_ids_NoDup|]. split; [|done].
    intros i Hi Hi'.
    apply list_elem_of_fmap in Hi as (d & -> & Hd).
    apply elem_of_kept in Hd as [_ Hd]. by apply Hd.
  - intros d. unfold handleDataUpload.
    by rewrite elem_of_app, elem_of_kept.
  - unfold handleDataUpload. by eexists.
Qed.

(** A re-upload of [a.csv] next to an untouched [b.csv]. *)
Lemma handleDataUpload_unique_ids_witness :
  NoDup (file_id <$> handleDataUpload
           (upload_of [entry "f1" "a-v2.csv"])
           [entry "f1" "a.csv"; entry "f2" "b.csv"])
  ∧ handleDataUpload (upload_of [entry "f1" "a-v2.csv"])
      [entry "f1" "a.csv"; entry "f2" "b.csv"]
    = [entry "f2" "b.csv"; entry "f1" "a-v2.csv"].
Proof.
  split.
  - apply (handleDataUpload_unique_ids
             (upload_of [entry "f1" "a-v2.csv"])
             [entry "f1" "a.csv"; entry "f2" "b.csv"]).
    + by apply (bool_decide_unpack _); vm_compute.
    + by apply (bool_decide_unpack _); vm_compute.
  - reflexivity.
Defined.

(** C9 as stated fails: a response that carries one id twice leaves it
    twice in the list, although the previous list had unique ids. *)
Lemma handleDataUpload_duplicate_response :
  NoDup (file_id <$> ([] : list UploadedFileInfo))
  ∧ ¬ NoDup (file_id <$> handleDataUpload
               (upload_of [entry "f1" "a.csv"; entry "f1" "b.csv"]) []).
Proof.
  split; [constructor|].
  intros Hnd. vm_compute in Hnd.
  apply NoDup_cons in Hnd as [Hin _]. apply Hin. by left.
Qed.

(** C10: the top bar of the empty list reads [No dataset loaded]; the top
    bar of a list that ends in [d] reads [Active: ] followed by the
    filename of [d], and after an upload that is the last file of the
    response. *)
Theorem top_bar_shows_last ds d (resp : list UploadedFileInfo) ty n :
  top_bar [] = Some "No dataset loaded"
  ∧ top_bar (ds ++ [d]) = Some ("Active: " +:+ filename d)
  ∧ top_bar (handleDataUpload
               {| files := resp ++ [d]; file_type := ty; total_files := n |} ds)
    = Some ("Active: " +:+ filename d).
Proof.
  assert (Hlast : ∀ l, top_bar (l ++ [d]) = Some ("Active: " +:+ filename d)).
  { intros l. unfold top_bar. rewrite length_app. simpl.
    case_decide; [|lia].
    replace (length l + 1 - 1) with (length l) by lia.
    by rewrite list_lookup_middle. }
  split; [done|]. split; [apply Hlast|].
  unfold handleDataUpload. simpl. rewrite app_assoc. apply Hlast.
Qed.

Lemma filter_none {A} (P : A → Prop) `{!∀ x, Decision (P x)} (l : list A) :
  (∀ x, x ∈ l → ¬ P x) → filter P l = [].
Proof.
  induction l as [|x l IH]; intros Hl; [done|].
  rewrite filter_cons_False; [|apply Hl; by left].
  apply IH. intros y Hy. apply Hl. by right.
Qed.

(** Handling the same response twice changes nothing more: the entries
    the response replaced stay replaced, and its files stay at the end. *)
Theorem handleDataUpload_idempotent data prev :
  handleDataUpload data (handleDataUpload data prev)
  = handleDataUpload data prev.
Proof.
  assert (Hnew : filter (λ d, file_id d ∉ newIds data) (files data) = []).
  { apply filter_none. intros d Hd Hnot.
    apply Hnot, elem_of_newIds, list_elem_of_fmap. eauto. }
  unfold handleDataUpload.
  rewrite filter_app, list_filter_filter, Hnew, app_nil_r. f_equal.
  apply list_filter_iff. tauto.
Qed.

(** The list of documents keeps unique ids after every upload: the entry
    with the uploaded id, if any, is removed and one entry for the upload
    is put at the end. *)
Theorem handleDocUpload_unique_ids (data : DocUploadResponse)
    (prev : list DocListItem) :
  NoDup (doc_id <$> prev) →
  NoDup (doc_id <$> handleDocUpload data prev)
  ∧ last (handleDocUpload data prev)
    = Some {| doc_id := resp_doc_id data;
              doc_name := resp_filename data;
              doc_num_chunks := resp_num_chunks data |}.
Proof.
  intros Hnd. split; [|by unfold handleDocUpload; rewrite last_snoc].
  unfold handleDocUpload. rewrite fmap_app. apply NoDup_app.
  split; [|split].
  - induction prev as [|d prev IH]; [constructor|].
    rewrite fmap_cons in Hnd. apply NoDup_cons in Hnd as [Hd Hnd].
    rewrite filter_cons. case_decide; [|by apply IH].
    rewrite fmap_cons. apply NoDup_cons. split; [|by apply IH].
    intros Hin. apply Hd.
    apply list_elem_of_fmap in Hin as (d' & Heq & Hin).
    apply list_elem_of_filter in Hin as [_ Hin].
    apply list_elem_of_fmap. eauto.
  - intros i Hi Hi'. apply list_elem_of_fmap in Hi as (d & -> & Hd).
    apply list_elem_of_filter in Hd as [Hne _].
    apply Hne. simpl in Hi'. by apply list_elem_of_singleton in Hi'.
  - simpl. apply NoDup_singleton.
Qed.

Lemma handleDocUpload_unique_ids_witness :
  NoDup (doc_id <$> handleDocUpload
           {| resp_doc_id := "d1"; resp_filename := "paper-v2.pdf";
              resp_num_chunks := 12%Z; resp_entities := [] |}
           [{| doc_id := "d1"; doc_name := "paper.pdf"; doc_num_chunks := 9%Z |};
            {| doc_id := "d2"; doc_name := "notes.pdf"; doc_num_chunks := 3%Z |}]).
Proof.
  apply (handleDocUpload_unique_ids
           {| resp_doc_id := "d1"; resp_filename := "paper-v2.pdf";
              resp_num_chunks := 12%Z; resp_entities := [] |}
           [{| doc_id := "d1"; doc_name := "paper.pdf"; doc_num_chunks := 9%Z |};
            {| doc_id := "d2"; doc_name := "notes.pdf"; doc_num_chunks := 3%Z |}]).
  by apply (bool_decide_unpack _); vm_compute.
Defined.

End home_facts.

(** ** The drop zone *)

Section uploader_facts.
Import DataUploader DropZoneView.

Context {host : JsHost}.

(** The test of the first branch comes down to the [response] key. *)
Lemma response_branch err :
  truthy err && typeof_object err && in_response err = in_response err.
Proof. destruct err; simpl; by rewrite ?andb_false_r. Qed.

Lemma catch_msg_response err :
  in_response err = true →
  catch_msg err
  = or_else (response_detail err) (server_error (response_status err)).
Proof. intros Hin. unfold catch_msg. by rewrite response_branch, Hin. Qed.

Lemma catch_msg_error err :
  in_response err = false → instanceof_error err = true →
  catch_msg err = VString (default "" (error_message_prop err)).
Proof.
  intros Hin Herr. unfold catch_msg. by rewrite response_branch, Hin, Herr.
Qed.

Lemma catch_msg_other err :
  in_response err = false → instanceof_error err = false →
  catch_msg err = VString "Upload failed".
Proof.
  intros Hin Herr. unfold catch_msg. by rewrite response_branch, Hin, Herr.
Qed.

(** The text never reads the [stack] of the thrown value. *)
Lemma catch_msg_ignores_stack tr err :
  catch_msg (with_stack tr err) = catch_msg err.
Proof. by destruct err. Qed.

Lemma server_error_not_empty st : server_error st ≠ "".
Proof. unfold server_error. simpl. discriminate. Qed.

Lemma success_text_not_empty d : success_text d ≠ "".
Proof. unfold success_text. simpl. discriminate. Qed.

(** The error text is empty, and so no error paragraph is rendered for
    the failure, exactly when the thrown value carries no [response] key
    and is an [Error] whose message is empty. *)
Theorem catch_msg_empty err :
  catch_msg err = ""
  ↔ in_response err = false
    ∧ instanceof_error err = true
    ∧ error_message_prop err = Some "".
Proof.
  destruct (in_response err) eqn:Hin.
  - rewrite (catch_msg_response err Hin). split; [|by intros [? _]].
    unfold or_else. intros Hmsg. exfalso.
    destruct (response_detail err) as [v|].
    + destruct (js_truthy v) eqn:Hv.
      * subst v. done.
      * injection Hmsg as Hmsg. by apply (server_error_not_empty _ Hmsg).
    + injection Hmsg as Hmsg. by apply (server_error_not_empty _ Hmsg).
  - destruct (instanceof_error err) eqn:Herr.
    + rewrite (catch_msg_error err Hin Herr). split.
      * intros [= Hmsg]. split; [done|]. split; [done|].
        destruct err as [| | | | |o]; try done. simpl in *.
        rewrite Herr in *. by destruct (message o) as [m|]; simpl in *; subst.
      * by intros (_ & _ & ->).
    + rewrite (catch_msg_other err Hin Herr). split; [done|].
      by intros (_ & ? & _).
Qed.

(** For a thrown object that carries a [response] key the error value is
    decided by the response alone: it does not depend on the object's
    message nor on whether the object is an [Error]. It is the detail
    itself when the detail is truthy, whatever its type; otherwise (no
    response value, no data, no detail, or a falsy one) it is the
    [Server error] description of the status, and without a response
    value that is [Server error (undefined)]. *)
Theorem response_decides_text (o : JsObject) r b m :
  response o = Some r →
  catch_msg (ThrowObject {| instanceof_Error := b; response := Some r;
                            message := m; stack := stack o |})
  = catch_msg (ThrowObject o)
  ∧ (∀ v, response_detail (ThrowObject o) = Some v → js_truthy v = true →
          catch_msg (ThrowObject o) = v)
  ∧ (response_detail (ThrowObject o) = None
     ∨ (∃ v, response_detail (ThrowObject o) = Some v ∧ js_truthy v = false) →
     catch_msg (ThrowObject o)
     = server_error (response_status (ThrowObject o)))
  ∧ (r = None → catch_msg (ThrowObject o) = "Server error (undefined)").
Proof.
  intros Hr.
  assert (Hin : in_response (ThrowObject o) = true).
  { simpl. rewrite Hr. by apply bool_decide_eq_true_2. }
  pose proof (catch_msg_response _ Hin) as Hmsg.
  split; [|split; [|split]].
  - rewrite Hmsg, catch_msg_response by done.
    unfold response_detail, response_status. simpl. by rewrite Hr.
  - intros v Hv Ht. rewrite Hmsg, Hv. simpl. by rewrite Ht.
  - rewrite Hmsg. intros [->|(v & -> & Ht)]; simpl; [done|by rewrite Ht].
  - intros ->. rewrite Hmsg. unfold response_detail, response_status. simpl.
    by rewrite Hr.
Qed.

Context {File : Type}.
Variable meanwhile : State → State.
Implicit Types (uploadData : File → Completion UploadDataResponse)
               (onUpload : option (UploadDataResponse → Completion unit)).

Local Abbreviation onDrop := (DataUploader.onDrop meanwhile).

(** The state this handler has written when it is suspended, as the
    other handlers left it when it resumes. *)
Local Abbreviation resumed :=
  (meanwhile {| loading := true; successMsg := None; error := None |}).

(** No drop lets an exception out of the handler, whatever the request
    and the [onUpload] callback do. *)
Lemma onDrop_completes uploadData onUpload files st :
  ∃ st', onDrop uploadData onUpload files st = (Normal (), st').
Proof.
  unfold DataUploader.onDrop. destruct (files !! 0%nat) as [file|]; [|by eexists].
  unfold mbind, Eff_bind, try_catch_finally, await, call_onUpload, call. simpl.
  destruct (uploadData file) as [d|e]; simpl; [|by eexists].
  destruct onUpload as [f|]; simpl; [|by eexists].
  destruct (f d) as [[]|e]; simpl; by eexists.
Qed.

Lemma onDrop_rejected uploadData onUpload file rest st err :
  uploadData file = Throw err →
  onDrop uploadData onUpload (file :: rest) st
  = (Normal (), {| loading := false; successMsg := successMsg resumed;
                   error := Some (catch_msg err) |}).
Proof.
  intros Hrej. unfold DataUploader.onDrop. simpl.
  unfold mbind, Eff_bind, try_catch_finally, await. simpl.
  by rewrite Hrej.
Qed.

Lemma onDrop_returned uploadData onUpload file rest st d :
  uploadData file = Normal d →
  (∀ f, onUpload = Some f → f d = Normal ()) →
  onDrop uploadData onUpload (file :: rest) st
  = (Normal (), {| loading := false; successMsg := Some (success_text d);
                   error := error resumed |}).
Proof.
  intros Hok Hcb. unfold DataUploader.onDrop. simpl.
  unfold mbind, Eff_bind, try_catch_finally, await, call_onUpload, call. simpl.
  rewrite Hok. simpl. destruct onUpload as [f|]; simpl; [|done].
  by rewrite (Hcb f eq_refl).
Qed.

Lemma shows_error_text st s :
  error st = Some (VString s) → s ≠ "" → shows_error st s.
Proof.
  intros Herr Hs. split; [done|]. unfold render, slot. cbn [error_slot].
  rewrite Herr. simpl. by rewrite (proj2 (String.eqb_neq s "") Hs).
Qed.

(** C8, as amended: when the upload request is rejected with [err], the
    handler completes normally and clears [loading], whatever else was
    written during the [await], and the user sees a descriptive text
    chosen by [err] as the error of the drop zone: the server's detail
    when [err] carries a response whose detail is a non-empty string; the
    [Server error (status)] description when it carries a response
    without a detail or with an empty one; the error's own message when
    it carries no response and is an [Error] with a non-empty message;
    and the fixed text [Upload failed] when it is neither. The text does
    not depend on the stack of the thrown value, and no drop lets an
    exception out of the handler. *)
Theorem onDrop_failure_text uploadData onUpload file rest st err :
  uploadData file = Throw err →
  let out := onDrop uploadData onUpload (file :: rest) st in
  out.1 = Normal ()
  ∧ loading out.2 = false
  ∧ (∀ s, in_response err = true →
          response_detail err = Some (VString s) → s ≠ "" →
          shows_error out.2 s)
  ∧ (in_response err = true →
     response_detail err = None ∨ response_detail err = Some (VString "") →
     shows_error out.2 (server_error (response_status err)))
  ∧ (∀ m, in_response err = false → instanceof_error err = true →
          error_message_prop err = Some m → m ≠ "" →
          shows_error out.2 m)
  ∧ (in_response err = false → instanceof_error err = false →
     shows_error out.2 "Upload failed")
  ∧ (∀ tr, catch_msg (with_stack tr err) = catch_msg err)
  ∧ (∀ files st0, (onDrop uploadData onUpload files st0).1 = Normal ()).
Proof.
  intros Hrej out. subst out.
  rewrite (onDrop_rejected uploadData onUpload file rest st err Hrej).
  cbn [fst snd loading].
  split; [done|]. split; [done|].
  split; [|split; [|split; [|split; [|split]]]].
  - intros s Hin Hd Hs. apply shows_error_text; [|done]. cbn [error].
    rewrite (catch_msg_response err Hin), Hd. simpl.
    by rewrite (proj2 (String.eqb_neq s "") Hs).
  - intros Hin Hd. apply shows_error_text; [|apply server_error_not_empty].
    cbn [error]. rewrite (catch_msg_response err Hin).
    by destruct Hd as [->| ->].
  - intros m Hin Herr Hm Hne. apply shows_error_text; [|done]. cbn [error].
    by rewrite (catch_msg_error err Hin Herr), Hm.
  - intros Hin Herr. apply shows_error_text; [|done]. cbn [error].
    by rewrite (catch_msg_other err Hin Herr).
  - intros tr. apply catch_msg_ignores_stack.
  - intros files st0.
    by destruct (onDrop_completes uploadData onUpload files st0) as [st' ->].
Qed.

(** A drop without a file changes nothing. *)
Lemma onDrop_no_file uploadData onUpload st :
  onDrop uploadData onUpload [] st = (Normal (), st).
Proof. reflexivity. Qed.

(** When the upload succeeds and the [onUpload] callback throws, the
    exception is caught like a failed upload: the drop zone stops
    loading and shows the error text of the thrown value, next to the
    success text that was already set. *)
Theorem onDrop_callback_throws uploadData f file rest st d err :
  uploadData file = Normal d →
  f d = Throw err →
  onDrop uploadData (Some f) (file :: rest) st
  = (Normal (), {| loading := false;
                   successMsg := Some (success_text d);
                   error := Some (catch_msg err) |}).
Proof.
  intros Hok Hcb. unfold DataUploader.onDrop. simpl.
  unfold mbind, Eff_bind, try_catch_finally, await, call_onUpload, call. simpl.
  rewrite Hok. simpl. by rewrite Hcb.
Qed.

(** A successful upload, with no callback or one that returns: the drop
    zone stops loading and holds the success text of the response; the
    error value is the one written during the [await], which is [null]
    when nothing else wrote the state. *)
Theorem onDrop_fulfilled uploadData onUpload file rest st d :
  uploadData file = Normal d →
  (∀ f, onUpload = Some f → f d = Normal ()) →
  onDrop uploadData onUpload (file :: rest) st
  = (Normal (), {| loading := false;
                   successMsg := Some (success_text d);
                   error := error resumed |})
  ∧ ((∀ s, meanwhile s = s) →
     onDrop uploadData onUpload (file :: rest) st
     = (Normal (), {| loading := false;
                      successMsg := Some (success_text d);
                      error := None |})).
Proof.
  intros Hok Hcb.
  pose proof (onDrop_returned uploadData onUpload file rest st d Hok Hcb) as Hrun.
  split; [done|]. intros Hidle. by rewrite Hrun, Hidle.
Qed.


(** After a drop with a file whose [onUpload] callback is absent or
    returns, and during whose [await] nothing else wrote the state, the
    drop zone shows the prompt again and never both a success and an
    error paragraph: a fulfilled upload shows the success text alone; a
    rejected one shows no success text and, in the place of the error,
    what React renders for the value the [catch] clause computed. *)
Theorem view_after_drop uploadData onUpload file rest st :
  (∀ f d, onUpload = Some f → f d = Normal ()) →
  (∀ s, meanwhile s = s) →
  let v := render (onDrop uploadData onUpload (file :: rest) st).2 in
  uploading v = false
  ∧ (∀ d, uploadData file = Normal d →
          success_slot v = Paragraph (success_text d)
          ∧ error_slot v = Blank)
  ∧ (∀ err, uploadData file = Throw err →
            success_slot v = Blank
            ∧ error_slot v = slot (Some (catch_msg err)))
  ∧ ¬ ((∃ s, success_slot v = Paragraph s) ∧ (∃ s, error_slot v = Paragraph s)).
Proof.
  intros Hcb Hidle v. subst v.
  destruct (uploadData file) as [d|e] eqn:Hup.
  - rewrite (onDrop_returned uploadData onUpload file rest st d Hup
               (λ f, Hcb f d)), Hidle.
    assert (Hs : String.eqb (success_text d) "" = false)
      by (apply String.eqb_neq, success_text_not_empty).
    unfold render, slot.
    cbn [successMsg error loading uploading error_slot success_slot snd fmap
         option_fmap option_map child_text js_truthy].
    rewrite Hs. cbn [negb].
    split; [done|]. split; [by intros d' [= <-]|]. split; [done|].
    by intros [_ [? ?]].
  - rewrite (onDrop_rejected uploadData onUpload file rest st e Hup), Hidle.
    unfold render. cbn [successMsg error loading uploading error_slot
                        success_slot snd fmap option_fmap option_map].
    split; [done|]. split; [done|]. split; [by intros err [= <-]|].
    by intros [[? ?] _].
Qed.

End uploader_facts.

Lemma onDrop_callback_throws_witness :
  DataUploader.onDrop (host := DataUploader.ascii_host) DataUploader.idle
    (λ _ : unit, DataUploader.Normal (Home.upload_of [Home.entry "f1" "a.csv"]))
    (Some (λ _, DataUploader.Throw (DataUploader.ThrowString "boom")))
    [()] DataUploader.initial
  = (DataUploader.Normal (),
     {| DataUploader.loading := false;
        DataUploader.successMsg := Some "✓ Loaded 1 file (CSV)";
        DataUploader.error := Some (DataUploader.VString "Upload failed") |}).
Proof.
  apply (onDrop_callback_throws (host := DataUploader.ascii_host)
           DataUploader.idle
           (λ _ : unit, DataUploader.Normal
                          (Home.upload_of [Home.entry "f1" "a.csv"]))
           (λ _, DataUploader.Throw (DataUploader.ThrowString "boom"))
           () [] DataUploader.initial
           (Home.upload_of [Home.entry "f1" "a.csv"])
           (DataUploader.ThrowString "boom") eq_refl eq_refl).
Defined.

Lemma onDrop_fulfilled_witness :
  DataUploader.onDrop (host := DataUploader.ascii_host) DataUploader.idle
    (λ _ : unit, DataUploader.Normal
                   (Home.upload_of [Home.entry "f1" "a.csv";
                                    Home.entry "f2" "b.csv"]))
    None [()] DataUploader.initial
  = (DataUploader.Normal (),
     {| DataUploader.loading := false;
        DataUploader.successMsg := Some "✓ Loaded 2 files (CSV)";
        DataUploader.error := None |}).
Proof.
  apply (onDrop_fulfilled (host := DataUploader.ascii_host) DataUploader.idle
           (λ _ : unit, DataUploader.Normal
                          (Home.upload_of [Home.entry "f1" "a.csv";
                                           Home.entry "f2" "b.csv"]))
           None () [] DataUploader.initial
           (Home.upload_of [Home.entry "f1" "a.csv"; Home.entry "f2" "b.csv"])
           eq_refl).
  - intros f Hf. discriminate Hf.
  - reflexivity.
Defined.

(** A 400 answer with a detail string: the drop zone shows the detail. *)
Lemma onDrop_failure_text_witness :
  let err := DataUploader.axios_error 400%Z
               (Some (DataUploader.VString "Unsupported file type")) in
  let out := DataUploader.onDrop (host := DataUploader.ascii_host)
               DataUploader.idle (λ _ : unit, DataUploader.Throw err) None [()]
               DataUploader.initial in
  out.1 = DataUploader.Normal ()
  ∧ DataUploader.loading out.2 = false
  ∧ DataUploader.error out.2
    = Some (DataUploader.VString "Unsupported file type")
  ∧ DropZoneView.error_slot (DropZoneView.render out.2)
    = DropZoneView.Paragraph "Unsupported file type".
Proof.
  intros err out.
  destruct (onDrop_failure_text (host := DataUploader.ascii_host)
              DataUploader.idle (λ _ : unit, DataUploader.Throw err) None () []
              DataUploader.initial err eq_refl)
    as (Hdone & Hload & Hdetail & _).
  split; [exact Hdone|]. split; [exact Hload|].
  apply (Hdetail "Unsupported file type"); [reflexivity|reflexivity|discriminate].
Defined.

(** C8 as stated fails: a rejection with a value that is neither an object
    with a [response] nor an [Error] (here a thrown string) is shown as
    [Upload failed], which is none of the detail string, a server-status
    description, or the error's own message. *)
Lemma onDrop_fallback_text_not_listed :
  let err := DataUploader.ThrowString "boom" in
  let out := DataUploader.onDrop (host := DataUploader.ascii_host)
               DataUploader.idle (λ _ : unit, DataUploader.Throw err) None [()]
               DataUploader.initial in
  out = (DataUploader.Normal (),
         {| DataUploader.loading := false;
            DataUploader.successMsg := None;
            DataUploader.error := Some (DataUploader.VString "Upload failed") |})
  ∧ DropZoneView.error_slot (DropZoneView.render out.2)
    = DropZoneView.Paragraph "Upload failed"
  ∧ ¬ DataUploader.listed_message (H := DataUploader.ascii_host)
        err "Upload failed".
Proof.
  split; [reflexivity|]. split; [reflexivity|].
  intros [Hd|[[st Hs]|Hm]]; [discriminate Hd| |discriminate Hm].
  unfold DataUploader.server_error in Hs. simpl in Hs. discriminate Hs.
Qed.

(** A network-level axios error that still carries an empty response
    object: the text is the status description, not the message. *)
Lemma response_decides_text_witness :
  DataUploader.catch_msg (host := DataUploader.ascii_host)
    (DataUploader.ThrowObject
       {| DataUploader.instanceof_Error := true;
          DataUploader.response :=
            Some (Some {| DataUploader.data := None;
                          DataUploader.status := Some (DataUploader.StatusCode 502%Z) |});
          DataUploader.message := Some "Request failed with status code 502";
          DataUploader.stack := None |})
  = DataUploader.VString "Server error (502)".
Proof.
  rewrite (proj1 (proj2 (proj2 (response_decides_text
             (host := DataUploader.ascii_host)
             {| DataUploader.instanceof_Error := true;
                DataUploader.response :=
                  Some (Some {| DataUploader.data := None;
                                DataUploader.status := Some (DataUploader.StatusCode 502%Z) |});
                DataUploader.message := Some "Request failed with status code 502";
                DataUploader.stack := None |}
             _ true None eq_refl)))); [reflexivity|by left].
Defined.

Lemma view_after_drop_witness :
  let v := DropZoneView.render
             (DataUploader.onDrop (host := DataUploader.ascii_host)
                DataUploader.idle
                (λ _ : unit, DataUploader.Throw
                               (DataUploader.axios_error 413%Z
                                  (Some (DataUploader.VString "File too large"))))
                None [()] DataUploader.initial).2 in
  DropZoneView.uploading v = false
  ∧ DropZoneView.error_slot v = DropZoneView.Paragraph "File too large"
  ∧ DropZoneView.success_slot v = DropZoneView.Blank.
Proof.
  intros v.
  assert (Hcb : ∀ (f : UploadDataResponse → DataUploader.Completion unit) d,
            None = Some f → f d = DataUploader.Normal ())
    by (intros f d Hf; discriminate Hf).
  destruct (view_after_drop (host := DataUploader.ascii_host) DataUploader.idle
              (λ _ : unit, DataUploader.Throw
                             (DataUploader.axios_error 413%Z
                                (Some (DataUploader.VString "File too large"))))
              None () [] DataUploader.initial Hcb (λ s, eq_refl))
    as (Hload & _ & Herr & _).
  split; [exact Hload|].
  destruct (Herr _ eq_refl) as [Hs He]. by split.
Defined.

(** What the amended claim leaves aside. A validation answer whose detail
    is a list of objects: the list itself becomes the error value, and
    React throws while rendering the drop zone. *)
Example validation_detail_breaks_render :
  let out := DataUploader.onDrop (host := DataUploader.ascii_host)
               DataUploader.idle
               (λ _ : unit, DataUploader.Throw
                              (DataUploader.axios_error 422%Z
                                 (Some DataUploader.validation_detail)))
               None [()] DataUploader.initial in
  DataUploader.error out.2 = Some DataUploader.validation_detail
  ∧ DropZoneView.error_slot (DropZoneView.render out.2)
    = DropZoneView.RenderFault.
Proof. by split. Qed.

(** An [Error] with an empty message: the error text is set to the empty
    string, and the drop zone renders nothing for it. *)
Example empty_message_not_shown :
  let err := DataUploader.ThrowObject
               {| DataUploader.instanceof_Error := true;
                  DataUploader.response := None;
                  DataUploader.message := Some "";
                  DataUploader.stack := None |} in
  let out := DataUploader.onDrop (host := DataUploader.ascii_host)
               DataUploader.idle (λ _ : unit, DataUploader.Throw err) None [()]
               DataUploader.initial in
  DataUploader.error out.2 = Some (DataUploader.VString "")
  ∧ DropZoneView.error_slot (DropZoneView.render out.2) = DropZoneView.Blank.
Proof. by split. Qed.

(** A drop that starts while another is awaited: its late rejection
    leaves an error text next to the success text of the drop that
    finished in between. *)
Example overlapping_drops_show_both :
  let later := {| DataUploader.loading := false;
                  DataUploader.successMsg := Some "✓ Loaded 1 file (CSV)";
                  DataUploader.error := None |} in
  let v := DropZoneView.render
             (DataUploader.onDrop (host := DataUploader.ascii_host)
                (λ _, later)
                (λ _ : unit, DataUploader.Throw (DataUploader.ThrowString "boom"))
                None [()] DataUploader.initial).2 in
  DropZoneView.success_slot v = DropZoneView.Paragraph "✓ Loaded 1 file (CSV)"
  ∧ DropZoneView.error_slot v = DropZoneView.Paragraph "Upload failed".
Proof. by split. Qed.

(** ** The conversation session *)

Section session_facts.
Import ConversationSession.

(** The message type of the front end carries two of the three roles. *)
Lemma ChatMessage_roles (m : ChatMessage) : role_literal (role m) ∈ spec_roles.
Proof. destruct (role m); simpl; [by left|by right; left]. Qed.

Lemma no_tool_role_in_ChatMessage :
  "tool" ∈ spec_roles
  ∧ ∀ m : ChatMessage, role_literal (role m) ≠ "tool".
Proof.
  split; [by do 2 right; left|].
  intros m. by destruct (role m).
Qed.

End session_facts.

(** ** The tabular store *)

Section store_facts.
Import TabularStore.

Implicit Types (s : Store) (d : Dataset) (p : Predicate) (r : Row)
               (schema : list (string * ColType)).

(** Writes do change the store: [put] replaces by id, and leaves the
    other datasets alone. *)
Lemma put_lookup d s id :
  (put d s).2 !! id = if decide (ds_id d = id) then Some d else s !! id.
Proof. unfold put. simpl. apply lookup_insert. Qed.

Lemma delete_dataset_lookup id s :
  (delete_dataset id s).2 !! id = None.
Proof.
  unfold delete_dataset. destruct (s !! id) eqn:Hid; simpl; [|done].
  apply lookup_delete_eq.
Qed.

(** *** The columns of a schema *)

Lemma column_at_here schema col t : column_at ((col, t) :: schema) col 0 t.
Proof. split; [done|]. intros j ct Hj. lia. Qed.

Lemma column_at_later schema c t0 col i t :
  c ≠ col →
  column_at ((c, t0) :: schema) col (S i) t ↔ column_at schema col i t.
Proof.
  intros Hne. unfold column_at. simpl. split.
  - intros [Hi Hfirst]. split; [done|].
    intros j ct Hj Hct. apply (Hfirst (S j) ct); [lia|done].
  - intros [Hi Hfirst]. split; [done|].
    intros [|j] ct Hj Hct; simpl in Hct.
    + by injection Hct as <-.
    + apply (Hfirst j ct); [lia|done].
Qed.

Lemma column_at_first schema c t0 i t : column_at ((c, t0) :: schema) c i t → i = 0 ∧ t = t0.
Proof.
  intros [Hi Hfirst]. destruct i as [|i].
  - simpl in Hi. by injection Hi as ->.
  - by destruct (Hfirst 0 (c, t0) ltac:(lia) eq_refl).
Qed.

Lemma column_at_not_first schema c t0 col i t :
  c ≠ col → column_at ((c, t0) :: schema) col i t →
  ∃ i', i = S i' ∧ column_at schema col i' t.
Proof.
  intros Hne Hat. destruct i as [|i].
  - destruct Hat as [Hi _]. simpl in Hi. by injection Hi as ? ?.
  - exists i. split; [done|]. by apply (column_at_later schema c t0).
Qed.

(** [col_index] and [col_type] find the column of a name, and find none
    only when the schema has none. *)
Lemma col_index_type schema col :
  match col_index schema col, col_type schema col with
  | Some i, Some t => column_at schema col i t
  | None, None => ∀ i t, ¬ column_at schema col i t
  | _, _ => False
  end.
Proof.
  induction schema as [|[c t0] schema IH].
  - simpl. intros i t [Hi _]. by rewrite lookup_nil in Hi.
  - unfold col_type in *. simpl.
    destruct (String.eqb_spec c col) as [->|Hne]; simpl.
    + apply column_at_here.
    + destruct (col_index schema col) as [i|],
               (List.find _ schema) as [[c' t]|]; simpl in *; try done.
      * by apply column_at_later.
      * intros i t Hat.
        destruct (column_at_not_first _ _ _ _ _ _ Hne Hat) as (i' & _ & Hat').
        by apply (IH i' t).
Qed.

Lemma column_at_unique schema col i t i' t' :
  column_at schema col i t → column_at schema col i' t' → i = i' ∧ t = t'.
Proof.
  intros [Hi Hfirst] [Hi' Hfirst'].
  destruct (Nat.lt_trichotomy i i') as [Hlt|[->|Hlt]].
  - by destruct (Hfirst' i (col, t) Hlt Hi).
  - rewrite Hi in Hi'. by injection Hi' as ->.
  - by destruct (Hfirst i' (col, t') Hlt Hi').
Qed.

Lemma col_index_Some schema col i :
  col_index schema col = Some i ↔ ∃ t, column_at schema col i t.
Proof.
  pose proof (col_index_type schema col) as Hct.
  destruct (col_index schema col) as [i0|], (col_type schema col) as [t0|];
    try done.
  - split.
    + intros [= <-]. by exists t0.
    + intros [t Hat]. by destruct (column_at_unique _ _ _ _ _ _ Hct Hat) as [-> _].
  - split; [done|]. intros [t Hat]. by destruct (Hct i t).
Qed.

Lemma col_type_Some schema col t :
  col_type schema col = Some t ↔ ∃ i, column_at schema col i t.
Proof.
  pose proof (col_index_type schema col) as Hct.
  destruct (col_index schema col) as [i0|], (col_type schema col) as [t0|];
    try done.
  - split.
    + intros [= <-]. by exists i0.
    + intros [i Hat]. by destruct (column_at_unique _ _ _ _ _ _ Hct Hat) as [_ ->].
  - split; [done|]. intros [i Hat]. by destruct (Hct i t).
Qed.

(** *** The evaluator against the meaning *)

Lemma compatible_fits t op lit : compatible t op lit = true ↔ fits t op lit.
Proof.
  split.
  - destruct t, lit, op; simpl; intros H; try done; constructor.
  - by intros [].
Qed.

Lemma schema_fault_valid schema p :
  schema_fault schema p = None ↔ valid_for schema p.
Proof.
  induction p as [col op lit|p IHp q IHq|p IHp q IHq]; simpl.
  - destruct (col_type schema col) as [t|] eqn:Ht.
    + apply col_type_Some in Ht as [i Hat].
      destruct (compatible t op lit) eqn:Hc.
      * split; [|done]. intros _. apply (valid_cmp _ _ _ _ i t); [done|].
        by apply compatible_fits.
      * split; [done|]. intros Hv. inversion Hv as [? ? ? i' t' Hat' Hfits| |]; subst.
        destruct (column_at_unique _ _ _ _ _ _ Hat Hat') as [_ <-].
        apply compatible_fits in Hfits. by rewrite Hfits in Hc.
    + split; [done|]. intros Hv. inversion Hv as [? ? ? i' t' Hat' Hfits| |]; subst.
      assert (Hsome : col_type schema col = Some t')
        by (apply col_type_Some; by exists i').
      by rewrite Hsome in Ht.
  - destruct (schema_fault schema p) as [c|].
    + split; [done|]. intros Hv. inversion Hv; subst.
      by apply IHp.
    + rewrite IHq. split.
      * intros Hq. constructor; [by apply IHp|done].
      * intros Hv. by inversion Hv.
  - destruct (schema_fault schema p) as [c|].
    + split; [done|]. intros Hv. inversion Hv; subst.
      by apply IHp.
    + rewrite IHq. split.
      * intros Hq. constructor; [by apply IHp|done].
      * intros Hv. by inversion Hv.
Qed.

Lemma cell_holds_satisfies c op lit :
  cell_holds c op lit = true ↔ cell_satisfies c op lit.
Proof.
  split.
  - destruct c as [|a|a], lit as [b|b]; simpl; try done.
    + destruct (Qcompare a b) eqn:Hc; intros H.
      * apply (proj2 (Qeq_alt a b)) in Hc.
        destruct op; try done; constructor; try done.
        -- rewrite Hc. apply Qle_refl.
        -- rewrite Hc. apply Qle_refl.
      * apply (proj2 (Qlt_alt a b)) in Hc.
        destruct op; try done; constructor; try done.
        -- intros Heq. rewrite Heq in Hc. by apply (Qlt_irrefl b).
        -- by apply Qlt_le_weak.
      * apply (proj2 (Qgt_alt a b)) in Hc.
        destruct op; try done; constructor; try done.
        -- intros Heq. rewrite Heq in Hc. by apply (Qlt_irrefl b).
        -- by apply Qlt_le_weak.
    + destruct op; simpl; intros H; try done.
      * apply String.eqb_eq in H as ->. constructor.
      * constructor. apply String.eqb_neq. by apply negb_true_iff.
  - intros [a b H|a b H|a b H|a b H|a b H|a b H|a|a b H]; unfold cell_holds.
    + apply (proj1 (Qeq_alt a b)) in H. by rewrite H.
    + destruct (Qcompare a b) eqn:Hc; [|done|done].
      by apply (proj2 (Qeq_alt a b)) in Hc.
    + apply (proj1 (Qlt_alt a b)) in H. by rewrite H.
    + apply (proj1 (Qle_alt a b)) in H. by destruct (Qcompare a b).
    + apply (proj1 (Qgt_alt a b)) in H. by rewrite H.
    + apply (proj1 (Qge_alt a b)) in H. by destruct (Qcompare a b).
    + by rewrite String.eqb_refl.
    + apply negb_true_iff. by apply String.eqb_neq.
Qed.

(** The evaluator [filter] uses decides the meaning of the predicate. *)
Lemma holds_satisfies schema p r :
  holds schema p r = true ↔ satisfies schema r p.
Proof.
  induction p as [col op lit|p IHp q IHq|p IHp q IHq]; simpl.
  - split.
    + destruct (col_index schema col) as [i|] eqn:Hi; [|done].
      apply col_index_Some in Hi as [t Hat].
      destruct (r !! i) as [c|] eqn:Hc; [|done].
      intros Hh. apply (satisfies_cmp _ _ _ _ _ i t c); [done|done|].
      by apply cell_holds_satisfies.
    + intros Hs. inversion Hs as [? ? ? i t c Hat Hc Hcell| | |]; subst.
      assert (Hi : col_index schema col = Some i)
        by (apply col_index_Some; by exists t).
      rewrite Hi, Hc. by apply cell_holds_satisfies.
  - rewrite andb_true_iff, IHp, IHq. split.
    + intros [? ?]. by constructor.
    + intros Hs. by inversion Hs.
  - rewrite orb_true_iff, IHp, IHq. split.
    + intros [?|?]; [by apply satisfies_or_l|by apply satisfies_or_r].
    + intros Hs. inversion Hs; subst; [by left|by right].
Qed.

Lemma filter_rows_ok d p :
  schema_fault (ds_schema d) p = None →
  filter_rows d p = Ok (base.filter (λ r, holds (ds_schema d) p r) (ds_rows d)).
Proof. intros Hp. unfold filter_rows. by rewrite Hp. Qed.

Lemma filter_rows_fault d p c :
  schema_fault (ds_schema d) p = Some c →
  filter_rows d p = Err SchemaError c.
Proof. intros Hp. unfold filter_rows. by rewrite Hp. Qed.

(** The answer of [filter] depends on the store through the one dataset
    only. *)
Lemma filter_depends_on_dataset parse id expr s s' :
  s !! id = s' !! id →
  (TabularStore.filter parse id expr s).1
  = (TabularStore.filter parse id expr s').1.
Proof. intros Heq. unfold TabularStore.filter. simpl. by rewrite Heq. Qed.

(** *** Requests that leave a dataset alone *)

Lemma store_after_lookup parse rq s id :
  ¬ writes_to id rq → store_after parse rq s !! id = s !! id.
Proof.
  destruct rq as [d|id'| | | | |]; simpl; intros Hw; try done.
  - by apply lookup_insert_ne.
  - unfold delete_dataset. destruct (s !! id'); simpl; [|done].
    by apply lookup_delete_ne.
Qed.

Lemma store_after_all_lookup parse rqs s id :
  Forall (λ rq, ¬ writes_to id rq) rqs →
  store_after_all parse rqs s !! id = s !! id.
Proof.
  unfold store_after_all. revert s.
  induction rqs as [|rq rqs IH]; intros s Hall; [done|].
  apply Forall_cons in Hall as [Hrq Hall]. simpl.
  by rewrite (IH _ Hall), store_after_lookup.
Qed.

(** C5: for a stored dataset and a predicate expression that parses to a
    predicate valid for the dataset's schema, [filter] answers with rows
    that form a sublist of the dataset's rows (each a row of the dataset,
    in the dataset's order, none more often than there), every one of
    which satisfies the predicate, and every row of the dataset that
    satisfies it is among them. It answers with the same rows again after
    any sequence of requests to the store, reads and writes, none of
    which puts or deletes that dataset, and in any store that holds the
    dataset under that id. *)
Theorem filter_sound_and_idempotent parse s id expr p d :
  s !! id = Some d →
  parse expr = Some p →
  valid_for (ds_schema d) p →
  ∃ rows,
    (TabularStore.filter parse id expr s).1 = Ok rows
    ∧ rows `sublist_of` ds_rows d
    ∧ (∀ r, r ∈ rows → satisfies (ds_schema d) r p)
    ∧ (∀ r, r ∈ ds_rows d → satisfies (ds_schema d) r p → r ∈ rows)
    ∧ (∀ rqs, Forall (λ rq, ¬ writes_to id rq) rqs →
         (TabularStore.filter parse id expr (store_after_all parse rqs s)).1
         = Ok rows)
    ∧ (∀ s', s' !! id = Some d →
             (TabularStore.filter parse id expr s').1 = Ok rows).
Proof.
  intros Hid Hparse Hvalid. apply schema_fault_valid in Hvalid.
  exists (base.filter (λ r, holds (ds_schema d) p r) (ds_rows d)).
  assert (Hcall : ∀ s', s' !! id = Some d →
    (TabularStore.filter parse id expr s').1
    = Ok (base.filter (λ r, holds (ds_schema d) p r) (ds_rows d))).
  { intros s' Hs'. unfold TabularStore.filter. simpl.
    by rewrite Hs', Hparse, filter_rows_ok. }
  split; [by apply Hcall|]. split; [apply sublist_filter|].
  split; [|split; [|split]].
  - intros r Hr. apply list_elem_of_filter in Hr as [Hr _].
    by apply holds_satisfies, Is_true_eq_true.
  - intros r Hr Hh. apply list_elem_of_filter. split; [|done].
    by apply Is_true_eq_left, holds_satisfies.
  - intros rqs Hrqs. apply Hcall. by rewrite store_after_all_lookup.
  - exact Hcall.
Qed.

(** The scenario's predicate is valid for the scenario's schema. *)
Lemma scenario_predicate_valid :
  valid_for (ds_schema scenario_ds1) (Cmp "gene_A" OpGt (LNum 0.4)).
Proof.
  apply (valid_cmp _ _ _ _ 1 TFloat); [|constructor].
  split; [done|]. intros [|j] ct Hj Hct; [|lia].
  injection Hct as <-. done.
Qed.

(** The scenario of the specification: [gene_A > 0.4] keeps the first two
    rows of [ds1] and drops the third, also after the dataset was read
    and another dataset was put and deleted. *)
Lemma filter_sound_and_idempotent_witness :
  let kept := [[Num 30; Num 0.5]; [Num 50; Num 0.9]] in
  (TabularStore.filter scenario_parse "ds1" "gene_A > 0.4"
     {[ "ds1" := scenario_ds1 ]}).1 = Ok kept
  ∧ kept `sublist_of` ds_rows scenario_ds1
  ∧ (∀ r, r ∈ kept →
          satisfies (ds_schema scenario_ds1) r (Cmp "gene_A" OpGt (LNum 0.4)))
  ∧ ¬ satisfies (ds_schema scenario_ds1) [Num 70; Num 0.2]
        (Cmp "gene_A" OpGt (LNum 0.4))
  ∧ (TabularStore.filter scenario_parse "ds1" "gene_A > 0.4"
       (store_after_all scenario_parse
          [ReqFilter "ds1" "gene_A > 0.4"; ReqGet "ds1";
           ReqPut {| ds_id := "ds2"; ds_name := "other"; ds_schema := [];
                     ds_row_count := 0; ds_column_stats := [];
                     ds_rows := [] |};
           ReqDelete "ds2"]
          {[ "ds1" := scenario_ds1 ]})).1 = Ok kept.
Proof.
  intros kept.
  destruct (filter_sound_and_idempotent scenario_parse
              {[ "ds1" := scenario_ds1 ]} "ds1" "gene_A > 0.4"
              (Cmp "gene_A" OpGt (LNum 0.4)) scenario_ds1
              (lookup_singleton_eq _ _) eq_refl scenario_predicate_valid)
    as (rows & Hcall & Hsub & Hsound & Hcomplete & Hagain & _).
  assert (Hrows : rows = kept).
  { assert (Hrun : (TabularStore.filter scenario_parse "ds1" "gene_A > 0.4"
                      {[ "ds1" := scenario_ds1 ]}).1 = Ok kept)
      by (unfold TabularStore.filter; simpl; by rewrite lookup_singleton_eq).
    rewrite Hrun in Hcall. by injection Hcall as <-. }
  subst rows.
  split; [exact Hcall|]. split; [exact Hsub|]. split; [exact Hsound|].
  split.
  - intros Hsat. specialize (Hcomplete [Num 70; Num 0.2]).
    assert (Hin : [Num 70; Num 0.2] ∈ kept).
    { apply Hcomplete; [|exact Hsat]. unfold scenario_ds1. simpl.
      do 2 right. by left. }
    unfold kept in Hin.
    apply elem_of_cons in Hin as [Heq|Hin]; [discriminate Heq|].
    apply elem_of_cons in Hin as [Heq|Hin]; [discriminate Heq|].
    by apply elem_of_nil in Hin.
  - apply Hagain. repeat (apply Forall_cons; split); try apply Forall_nil;
      simpl; try tauto; discriminate.
Defined.

(** A write to the dataset is what changes the answer. *)
Example filter_after_put :
  (TabularStore.filter scenario_parse "ds1" "gene_A > 0.4"
     (store_after scenario_parse
        (ReqPut {| ds_id := "ds1"; ds_name := "ds1";
                   ds_schema := [("age", TInt); ("gene_A", TFloat)];
                   ds_row_count := 1; ds_column_stats := [];
                   ds_rows := [[Num 70; Num 0.2]] |})
        {[ "ds1" := scenario_ds1 ]})).1
  = Ok [].
Proof.
  unfold TabularStore.filter, store_after, put. simpl.
  by rewrite lookup_insert_eq.
Qed.

Example aggregate_scenario :
  (aggregate "ds1" [] [("gene_A", Mean)] {[ "ds1" := scenario_ds1 ]}).1
  = Ok {| tb_columns := ["gene_A_mean"]; tb_rows := [[Num (8 # 15)]] |}.
Proof. by vm_compute. Qed.

End store_facts.

(** ** The tool registry *)

Section registry_facts.
Import TabularStore ToolRegistry.

Implicit Types (registry : list Tool) (store : Store) (call : ToolCall)
               (t : Tool) (args : list (string * Json)) (fd : Field).

(** *** The lookups against the declarations *)

Lemma find_tool_declares registry nm t :
  find_tool registry nm = Some t ↔ declares registry nm t.
Proof.
  unfold find_tool. induction registry as [|t' registry IH]; simpl.
  - split; [done|]. intros H. inversion H.
  - destruct (String.eqb_spec (tool_name t') nm) as [<-|Hne].
    + split.
      * intros [= <-]. constructor.
      * intros H. by inversion H; subst.
    + rewrite IH. split.
      * intros H. by constructor.
      * intros H. by inversion H; subst.
Qed.

Lemma find_tool_None registry nm :
  find_tool registry nm = None ↔ ∀ t, t ∈ registry → tool_name t ≠ nm.
Proof.
  unfold find_tool. induction registry as [|t' registry IH]; simpl.
  - split; [|done]. intros _ t Ht. by apply elem_of_nil in Ht.
  - destruct (String.eqb_spec (tool_name t') nm) as [<-|Hne].
    + split; [done|]. intros Hall. by destruct (Hall t' ltac:(left)).
    + rewrite IH. split.
      * intros Hall t Ht. apply elem_of_cons in Ht as [->|Ht]; [done|].
        by apply Hall.
      * intros Hall t Ht. apply Hall. by right.
Qed.

Lemma arg_binds args k v : arg args k = Some v ↔ binds args k v.
Proof.
  unfold arg. induction args as [|[k' v'] args IH]; simpl.
  - split; [done|]. intros H. inversion H.
  - destruct (String.eqb_spec k' k) as [->|Hne]; simpl.
    + split.
      * intros [= <-]. constructor.
      * intros H. by inversion H; subst.
    + rewrite IH. split.
      * intros H. by constructor.
      * intros H. by inversion H; subst.
Qed.

Lemma arg_unbound args k : arg args k = None ↔ ∀ v, ¬ binds args k v.
Proof.
  split.
  - intros Hnone v Hv. apply arg_binds in Hv. by rewrite Hv in Hnone.
  - intros Hno. destruct (arg args k) as [v|] eqn:Hv; [|done].
    apply arg_binds in Hv. by destruct (Hno v).
Qed.

Lemma is_integer_whole q : is_integer q = true ↔ ∃ n, (q == inject_Z n)%Q.
Proof.
  unfold is_integer. split.
  - intros Hden. exists (Qnum (Qred q)).
    rewrite <- (Qred_correct q) at 1.
    destruct (Qred q) as [n d]. simpl in *. by destruct d.
  - intros [n Hq]. rewrite (Qred_complete _ _ Hq).
    rewrite Qred_identity; [done|]. simpl. apply Z.gcd_1_r.
Qed.

Lemma has_type_well_typed ty v : has_type ty v = true ↔ well_typed ty v.
Proof.
  split.
  - destruct ty, v; simpl; intros H; try done; try constructor.
    apply is_integer_whole in H as [n Hn]. by apply (wt_integer _ n).
  - intros [| |q n Hq| | |]; simpl; try done.
    apply is_integer_whole. by exists n.
Qed.

Lemma in_choices_none cs v :
  in_choices cs v = false
  ↔ ∃ l, cs = Some l ∧ ∀ s, s ∈ l → v ≠ JStr s.
Proof.
  destruct cs as [l|]; simpl.
  - destruct v as [| | |s'| |]; simpl.
    4: { rewrite bool_decide_eq_false. split.
         - intros Hno. exists l. split; [done|]. intros s Hs [= <-]. by apply Hno.
         - intros (l' & [= <-] & Hno) Hin. by apply (Hno s'). }
    all: split; [intros _; exists l; split; [done|]; by intros s _|done].
  - split; [done|]. by intros (l & ? & _).
Qed.

(** [field_ok] fails exactly on the violated fields. *)
Lemma field_ok_violates args fd : field_ok args fd = false ↔ violates args fd.
Proof.
  unfold field_ok. split.
  - destruct (arg args (f_name fd)) as [v|] eqn:Hv.
    + apply arg_binds in Hv. intros Hbad.
      apply andb_false_iff in Hbad as [Hty|Hch].
      * apply (violates_type _ _ v); [done|].
        intros Hwt. apply has_type_well_typed in Hwt. by rewrite Hwt in Hty.
      * apply in_choices_none in Hch as (cs & Hcs & Hno).
        by apply (violates_choice _ _ v cs).
    + intros Hreq. apply negb_false_iff in Hreq.
      apply violates_missing; [done|]. by apply arg_unbound.
  - intros [Hreq Hno|v Hv Hty|v cs Hv Hcs Hno].
    + apply arg_unbound in Hno. by rewrite Hno, Hreq.
    + apply arg_binds in Hv. rewrite Hv.
      apply andb_false_iff. left.
      destruct (has_type (f_type fd) v) eqn:Hh; [|done].
      by apply has_type_well_typed in Hh.
    + apply arg_binds in Hv. rewrite Hv.
      apply andb_false_iff. right.
      apply in_choices_none. by exists cs.
Qed.

Lemma field_ok_kept args fd : field_ok args fd = true ↔ ¬ violates args fd.
Proof.
  rewrite <- field_ok_violates. by destruct (field_ok args fd).
Qed.

(** [validate] finds a violated field exactly when there is one, and the
    field it names is declared and violated. *)
Lemma validate_Some schema args f :
  validate schema args = Some f →
  ∃ fd, fd ∈ schema ∧ f_name fd = f ∧ violates args fd.
Proof.
  unfold validate. intros Hv.
  destruct (List.find _ schema) as [fd|] eqn:Hfind; [|done].
  injection Hv as <-. apply find_some in Hfind as [Hin Hbad].
  exists fd. split; [by apply list_elem_of_In|]. split; [done|].
  by apply field_ok_violates, negb_true_iff.
Qed.

Lemma validate_None schema args :
  validate schema args = None ↔ ∀ fd, fd ∈ schema → ¬ violates args fd.
Proof.
  unfold validate. split.
  - intros Hv fd Hin.
    destruct (List.find _ schema) as [fd'|] eqn:Hfind; [done|].
    apply list_elem_of_In in Hin.
    pose proof (find_none _ _ Hfind fd Hin) as Hok.
    by apply field_ok_kept, negb_false_iff.
  - intros Hall.
    destruct (List.find _ schema) as [fd|] eqn:Hfind; [|done].
    apply find_some in Hfind as [Hin Hbad].
    apply list_elem_of_In in Hin.
    apply negb_true_iff, field_ok_violates in Hbad.
    by destruct (Hall fd Hin).
Qed.

Lemma dataset_ref_binds t args id :
  dataset_ref t args = Some id
  ↔ ∃ f, tool_dataset_field t = Some f ∧ binds args f (JStr id).
Proof.
  unfold dataset_ref. destruct (tool_dataset_field t) as [f|]; simpl.
  - split.
    + destruct (arg args f) as [[| | |s| |]|] eqn:Hv; try done.
      intros [= <-]. exists f. split; [done|]. by apply arg_binds.
    + intros (f' & [= <-] & Hb). apply arg_binds in Hb. by rewrite Hb.
  - split; [done|]. by intros (f & ? & _).
Qed.

Lemma dispatch_runs registry limit store call t :
  find_tool registry (tc_name call) = Some t →
  validate (tool_schema t) (tc_arguments call) = None →
  (∀ id, dataset_ref t (tc_arguments call) = Some id → is_Some (store !! id)) →
  dispatch registry limit store call
  = classify call limit (tool_run t (tc_arguments call) store).
Proof.
  intros Hfind Hval Hds. unfold dispatch.
  rewrite Hfind, Hval.
  destruct (dataset_ref t (tc_arguments call)) as [id|]; [|done].
  by destruct (Hds id eq_refl) as [d ->].
Qed.

Lemma classify_status call limit o :
  tr_call_id (classify call limit o) = tc_call_id call
  ∧ (tr_status (classify call limit o) = StatusError
     ↔ is_Some (tr_error_kind (classify call limit o))).
Proof.
  destruct o; simpl; (split; [done|]); split; intros H;
    try done; try (by eexists); by destruct H.
Qed.



End registry_facts.

(** ** The orchestrator *)

Section orchestrator_facts.
Import ToolRegistry Orchestrator.

Variable send : list Turn → option ModelResponse.
Variable dispatch : ToolCall → ToolResult.
Variable max_steps : nat.

Local Abbreviation step := (Orchestrator.step send dispatch max_steps).
Local Abbreviation run := (Orchestrator.run send dispatch max_steps).
Local Abbreviation turn_inv := (Orchestrator.turn_inv max_steps).
Local Abbreviation distance := (Orchestrator.distance max_steps).

Lemma dispatch_rounds_app h1 h2 :
  dispatch_rounds (h1 ++ h2) = dispatch_rounds h1 + dispatch_rounds h2.
Proof. unfold dispatch_rounds. by rewrite filter_app, length_app. Qed.

Lemma dispatch_rounds_tool_turns results :
  dispatch_rounds (ToolTurn <$> results) = 0.
Proof. induction results as [|r results IH]; [done|]. exact IH. Qed.

Lemma dispatch_rounds_ask text c calls :
  dispatch_rounds [AssistantTurn text (c :: calls)] = 1.
Proof. reflexivity. Qed.

(** Whatever holds of a state and is kept by a transition holds at the
    end of a run. *)
Lemma run_preserves (P : State → Prop) :
  (∀ st, P st → P (step st)) → ∀ fuel st, P st → P (run fuel st).
Proof.
  intros Hstep fuel. induction fuel as [|fuel IH]; intros st HP; [done|].
  simpl. destruct (is_final (phase st)); [done|].
  apply IH. by apply Hstep.
Qed.

Lemma receive_inv text st0 :
  turn_inv (history st0 ++ [UserTurn text]) (receive text st0).
Proof.
  unfold Orchestrator.turn_inv. simpl.
  split; [lia|]. split; [done|]. split; [done|]. split; [|done].
  exists []. by rewrite app_nil_r.
Qed.

Lemma step_inv base st : turn_inv base st → turn_inv base (step st).
Proof.
  intros (Hle & Hphase & Hdisp & (new & Hhist & Hrounds) & Hflag).
  unfold Orchestrator.step.
  destruct (phase st) as [| |calls|a] eqn:Hp; [done| | |].
  - (* ModelTurn *)
    assert (Hfin : ∀ a, (step_limit_exceeded a = true → steps st = max_steps) →
                        turn_inv base (finish st a)).
    { intros a Ha. unfold Orchestrator.turn_inv, finish. simpl.
      split; [done|]. split; [done|]. split; [done|].
      split; [by exists new|]. intros a' Heq. by simplify_eq. }
    destruct (send (history st)) as [r|]; [|by apply Hfin].
    destruct (resp_tool_calls r) as [|c calls]; [by apply Hfin|].
    case_decide as Hlt; [|apply Hfin; intros _; lia].
    unfold Orchestrator.turn_inv. simpl.
    split; [done|]. split; [done|]. split; [done|]. split; [|done].
    exists (new ++ [AssistantTurn (default "" (resp_text r)) (c :: calls)]).
    rewrite Hhist, app_assoc. split; [done|].
    rewrite dispatch_rounds_app, Hrounds, dispatch_rounds_ask. lia.
  - (* ToolDispatch *)
    specialize (Hdisp calls eq_refl).
    unfold Orchestrator.turn_inv. simpl.
    split; [lia|]. split; [done|]. split; [done|]. split; [|done].
    exists (new ++ (ToolTurn <$> (dispatch <$> calls))).
    rewrite Hhist, app_assoc. split; [done|].
    rewrite dispatch_rounds_app, Hrounds, dispatch_rounds_tool_turns. lia.
  - (* FinalAnswer *)
    unfold Orchestrator.turn_inv. rewrite Hp.
    split; [done|]. split; [done|]. split; [done|]. split; [|done].
    by exists new.
Qed.

(** Every transition out of a state that is not final brings the final
    answer closer. *)
Lemma step_distance base st :
  turn_inv base st → is_final (phase st) = false →
  distance (step st) < distance st.
Proof.
  intros (Hle & Hphase & Hdisp & _ & _) Hnf.
  unfold Orchestrator.distance, Orchestrator.step.
  destruct (phase st) as [| |calls|a] eqn:Hp; [done| | |done].
  - destruct (send (history st)) as [r|]; simpl; [|lia].
    destruct (resp_tool_calls r) as [|c calls]; simpl; [lia|].
    case_decide; simpl; lia.
  - specialize (Hdisp calls eq_refl). simpl. lia.
Qed.

(** Enough fuel ends the run in a final answer. *)
Lemma run_reaches_final base fuel st :
  turn_inv base st → (distance st ≤ fuel)%nat →
  is_final (phase (run fuel st)) = true.
Proof.
  revert st. induction fuel as [|fuel IH]; intros st Hinv Hd.
  - simpl. destruct Hinv as (_ & Hphase & Hdisp & _ & _).
    unfold Orchestrator.distance in Hd.
    destruct (phase st) as [| |calls|a] eqn:Hp; [done|lia| |done].
    specialize (Hdisp calls eq_refl). lia.
  - simpl. destruct (is_final (phase st)) eqn:Hf; [done|].
    apply IH; [by apply step_inv|].
    pose proof (step_distance base st Hinv Hf). lia.
Qed.

Local Abbreviation answer_inv := (Orchestrator.answer_inv send).

Lemma step_answer_inv st : answer_inv st → answer_inv (step st).
Proof.
  intros Hst a. unfold Orchestrator.step.
  destruct (phase st) as [| |calls|a'] eqn:Hp; [by rewrite Hp| |done|].
  - destruct (send (history st)) as [r|] eqn:Hsend.
    + destruct (resp_tool_calls r) as [|c calls] eqn:Hcalls.
      * simpl. intros [= <-]. simpl. rewrite Hsend.
        split; [|split; [done|]].
        -- split; [done|]. intros (r' & [= <-] & Hne). by rewrite Hcalls in Hne.
        -- by intros r' [= <-] _.
      * case_decide; simpl; [done|]. intros [= <-]. simpl. rewrite Hsend.
        split; [|split; [done|]].
        -- split; [|done]. intros _. exists r. by rewrite Hcalls.
        -- intros r' [= <-] Hnil. by rewrite Hcalls in Hnil.
    + simpl. intros [= <-]. simpl. rewrite Hsend.
      split; [|split; [done|done]].
      split; [done|]. by intros (r & ? & _).
  - simpl. exact (Hst a).
Qed.

(** C1: a user turn ends in a final answer, whatever the model and the
    tools do. The tool rounds recorded in the history of the turn are the
    counted steps, and their number never exceeds the maximum, neither at
    the end nor at any point of the run. The answer is flagged
    [StepLimitExceeded] exactly when the model's response to the history
    the turn ended with still asks for tools, and then exactly the
    maximum of rounds has been made; an answer that is not flagged is the
    model's own text, or the report of a transport failure. A model that
    asks for tools in every response gets the flagged answer after
    exactly the maximum of rounds. *)
Theorem step_limit_bounds_turn text st0 :
  let final := handle_message send dispatch max_steps text st0 in
  ∃ a new,
    phase final = FinalAnswer a
    ∧ history final = history st0 ++ UserTurn text :: new
    ∧ dispatch_rounds new = steps final
    ∧ (steps final ≤ max_steps)%nat
    ∧ (∀ fuel, (steps (run fuel (receive text st0)) ≤ max_steps)%nat)
    ∧ (step_limit_exceeded a = true → steps final = max_steps)
    ∧ ((∀ h, ∃ r, send h = Some r ∧ resp_tool_calls r ≠ []) →
       step_limit_exceeded a = true ∧ dispatch_rounds new = max_steps)
    ∧ (step_limit_exceeded a = true
       ↔ ∃ r, send (history final) = Some r ∧ resp_tool_calls r ≠ [])
    ∧ (transport_failure a = true ↔ send (history final) = None)
    ∧ (∀ r, send (history final) = Some r → resp_tool_calls r = [] →
            answer_text a = default "" (resp_text r)).
Proof.
  intros final. unfold handle_message in final.
  set (base := history st0 ++ [UserTurn text]).
  assert (Hinv : ∀ fuel, turn_inv base (run fuel (receive text st0))).
  { intros fuel.
    apply (run_preserves (turn_inv base)); [apply step_inv|apply receive_inv]. }
  assert (Hfinal : is_final (phase final) = true).
  { apply (run_reaches_final base); [apply receive_inv|].
    unfold Orchestrator.distance. simpl. lia. }
  assert (Hans : answer_inv final).
  { apply (run_preserves answer_inv); [apply step_answer_inv|]. by intros a. }
  pose proof (Hinv (2 * max_steps + 1)) as Hend. fold final in Hend.
  destruct Hend as (Hle & _ & _ & (new & Hhist & Hrounds) & Hflag).
  destruct (phase final) as [| |calls|a] eqn:Hp; try done.
  destruct (Hans a Hp) as (Hlimit & Htransport & Htext).
  exists a, new. split; [done|].
  split; [by rewrite Hhist; unfold base; rewrite <- app_assoc|].
  split; [lia|]. split; [done|].
  split; [intros fuel; apply (Hinv fuel)|].
  split; [by apply Hflag|].
  split; [|split; [done|split; [done|]]].
  - intros Hadv.
    assert (Ha : step_limit_exceeded a = true) by (apply Hlimit, Hadv).
    split; [done|]. rewrite Hrounds, Nat.add_0_r. exact (Hflag a eq_refl Ha).
  - intros r Hr Hnil. by apply (Htext r Hr Hnil).
Qed.

Local Abbreviation serve := (Orchestrator.serve send dispatch max_steps).
Local Abbreviation serve_all := (Orchestrator.serve_all send dispatch max_steps).

(** No transition takes a turn out of the history or changes one. *)
Lemma step_extends st : history st `prefix_of` history (step st).
Proof.
  unfold Orchestrator.step.
  destruct (phase st) as [| |calls|a]; [done| |by apply prefix_app_r|done].
  destruct (send (history st)) as [r|]; [|done].
  destruct (resp_tool_calls r) as [|c calls]; [done|].
  case_decide; [by apply prefix_app_r|done].
Qed.

Lemma run_extends fuel st : history st `prefix_of` history (run fuel st).
Proof.
  apply (run_preserves (λ st', history st `prefix_of` history st')); [|done].
  intros st' Hst'. etrans; [exact Hst'|apply step_extends].
Qed.

Lemma handle_message_extends text st :
  (history st ++ [UserTurn text])
    `prefix_of` history (handle_message send dispatch max_steps text st).
Proof. unfold handle_message. apply (run_extends _ (receive text st)). Qed.

Lemma serve_all_snoc st rqs rq :
  serve_all st (rqs ++ [rq]) = serve (serve_all st rqs) rq.
Proof. unfold Orchestrator.serve_all. by rewrite foldl_app. Qed.

Lemma serve_all_extends st rqs :
  Reset ∉ rqs → history st `prefix_of` history (serve_all st rqs).
Proof.
  induction rqs as [|rq rqs IH] using rev_ind; intros Hno; [done|].
  rewrite serve_all_snoc.
  destruct rq as [text|].
  - etrans; [apply IH|].
    + intros Hin. apply Hno, elem_of_app. by left.
    + etrans; [|apply handle_message_extends]. by apply prefix_app_r.
  - exfalso. apply Hno, elem_of_app. right. by left.
Qed.


End orchestrator_facts.

(** The scenario of the specification: the model asks for a tool five
    times in a row against a step limit of three; the turn ends flagged
    after exactly three rounds. *)
Lemma step_limit_bounds_turn_witness :
  let final :=
    Orchestrator.handle_message
      (Orchestrator.asks_n_times 5 Orchestrator.scenario_call)
      Orchestrator.scenario_dispatch 3 "describe ds1" Orchestrator.idle in
  ∃ a new,
    Orchestrator.phase final = Orchestrator.FinalAnswer a
    ∧ Orchestrator.history final
      = Orchestrator.UserTurn "describe ds1" :: new
    ∧ Orchestrator.dispatch_rounds new = 3
    ∧ Orchestrator.step_limit_exceeded a = true.
Proof.
  intros final.
  destruct (step_limit_bounds_turn
              (Orchestrator.asks_n_times 5 Orchestrator.scenario_call)
              Orchestrator.scenario_dispatch 3 "describe ds1" Orchestrator.idle)
    as (a & new & Hp & Hhist & Hrounds & Hle & _ & Hmax & _ & Hflag & _).
  fold final in Hp, Hhist, Hrounds, Hle, Hmax, Hflag.
  assert (Ha : Orchestrator.step_limit_exceeded a = true).
  { apply Hflag. rewrite Hhist. unfold Orchestrator.asks_n_times.
    assert (Hlt : Orchestrator.dispatch_rounds
                    (Orchestrator.UserTurn "describe ds1" :: new) < 5).
    { change (Orchestrator.dispatch_rounds new < 5). lia. }
    rewrite (decide_True _ _ Hlt). by eexists. }
  exists a, new. split; [exact Hp|]. split; [exact Hhist|].
  split; [|exact Ha]. rewrite Hrounds. exact (Hmax Ha).
Defined.

(** ** The sidebar: which panels are open *)

Section sidebar_facts.
Import Home Sidebar.

Implicit Types (data : UploadDataResponse) (prev ds : datasets_state)
               (d f : UploadedFileInfo) (e : option string).

Lemma expanded_panels_none ds e :
  (∀ d, d ∈ ds → e ≠ Some (file_id d)) → expanded_panels ds e = [].
Proof.
  intros Hno. apply filter_none. intros d Hd Hexp.
  apply (Hno d Hd). unfold is_expanded in Hexp.
  by apply bool_decide_unpack in Hexp.
Qed.

(** With unique ids, the entries that render the panel of [d]'s id are
    [d] alone. *)
Lemma expanded_panels_of_member ds d :
  NoDup (file_id <$> ds) → d ∈ ds →
  expanded_panels ds (Some (file_id d)) = [d].
Proof.
  induction ds as [|x ds IH]; intros Hnd Hd; [by apply elem_of_nil in Hd|].
  rewrite fmap_cons in Hnd. apply NoDup_cons in Hnd as [Hx Hnd].
  unfold expanded_panels. apply elem_of_cons in Hd as [->|Hd].
  - rewrite filter_cons_True by (unfold is_expanded; by rewrite bool_decide_eq_true_2).
    f_equal. apply expanded_panels_none. intros d' Hd' [= Heq].
    apply Hx. rewrite Heq. apply list_elem_of_fmap. eauto.
  - rewrite filter_cons_False; [by apply IH|].
    unfold is_expanded. intros Hexp. apply bool_decide_unpack in Hexp.
    injection Hexp as Heq. apply Hx. rewrite <- Heq.
    apply list_elem_of_fmap. eauto.
Qed.

Lemma expanded_panels_at_most_one ds e :
  NoDup (file_id <$> ds) → (length (expanded_panels ds e) ≤ 1)%nat.
Proof.
  intros Hnd.
  destruct (decide (Exists (λ d, e = Some (file_id d)) ds)) as [Hex|Hno].
  - apply Exists_exists in Hex as (d & Hd & ->).
    by rewrite expanded_panels_of_member.
  - rewrite expanded_panels_none; [simpl; lia|].
    intros d Hd He. apply Hno, Exists_exists. eauto.
Qed.

(** With unique ids at most one entry of the list renders its panel, and
    a click on an entry [d] of the list opens the panel of [d] alone, or
    closes it when it was the open one. *)
Theorem one_panel_open ds e d :
  NoDup (file_id <$> ds) → d ∈ ds →
  (length (expanded_panels ds e) ≤ 1)%nat
  ∧ expanded_panels ds (toggle_expanded e d)
    = (if decide (e = Some (file_id d)) then [] else [d]).
Proof.
  intros Hnd Hd. split; [by apply expanded_panels_at_most_one|].
  unfold toggle_expanded. case_decide.
  - by apply expanded_panels_none.
  - by apply expanded_panels_of_member.
Qed.

Lemma one_panel_open_witness :
  expanded_panels [entry "f1" "a.csv"; entry "f2" "b.csv"]
    (toggle_expanded (Some "f1") (entry "f2" "b.csv"))
  = [entry "f2" "b.csv"]
  ∧ expanded_panels [entry "f1" "a.csv"; entry "f2" "b.csv"]
      (toggle_expanded (Some "f2") (entry "f2" "b.csv"))
    = [].
Proof.
  assert (Hnd : NoDup (file_id <$> [entry "f1" "a.csv"; entry "f2" "b.csv"]))
    by (by apply (bool_decide_unpack _); vm_compute).
  assert (Hin : entry "f2" "b.csv" ∈ [entry "f1" "a.csv"; entry "f2" "b.csv"])
    by (by right; left).
  split.
  - exact (proj2 (one_panel_open _ (Some "f1") _ Hnd Hin)).
  - exact (proj2 (one_panel_open _ (Some "f2") _ Hnd Hin)).
Defined.

(** Two entries with one id open together. *)
Example two_panels_open :
  expanded_panels [entry "f1" "a.csv"; entry "f1" "b.csv"] (Some "f1")
  = [entry "f1" "a.csv"; entry "f1" "b.csv"].
Proof. reflexivity. Qed.

Lemma upload_ids_NoDup data prev :
  NoDup (file_id <$> prev) → NoDup (file_id <$> files data) →
  NoDup (file_id <$> handleDataUpload data prev).
Proof.
  intros Hprev Hnew. rewrite handleDataUpload_ids. apply NoDup_app.
  split; [by apply kept_ids_NoDup|]. split; [|done].
  intros i Hi Hi'. apply list_elem_of_fmap in Hi as (d & -> & Hd).
  apply elem_of_kept in Hd as [_ Hd]. by apply Hd.
Qed.

(** An open panel follows a re-upload: after an upload with distinct ids
    into a list with unique ids, the panel of an uploaded id shows the
    uploaded file (not the entry it replaced), and the panel of any other
    id shows the entry it showed before. *)
Theorem panel_after_upload data prev :
  NoDup (file_id <$> prev) → NoDup (file_id <$> files data) →
  (∀ f, f ∈ files data →
        expanded_panels (handleDataUpload data prev) (Some (file_id f)) = [f])
  ∧ (∀ d, d ∈ prev → file_id d ∉ file_id <$> files data →
          expanded_panels (handleDataUpload data prev) (Some (file_id d))
          = expanded_panels prev (Some (file_id d))).
Proof.
  intros Hprev Hnew.
  pose proof (upload_ids_NoDup data prev Hprev Hnew) as Hnd.
  split.
  - intros f Hf. apply expanded_panels_of_member; [done|].
    unfold handleDataUpload. apply elem_of_app. by right.
  - intros d Hd Hid. rewrite !expanded_panels_of_member; try done.
    unfold handleDataUpload. apply elem_of_app. left.
    by apply elem_of_kept.
Qed.

Lemma panel_after_upload_witness :
  expanded_panels
    (handleDataUpload
       (upload_of [file_with "f1" [column "age" 2%Z]])
       [entry "f1" "a.csv"; entry "f2" "b.csv"])
    (Some "f1")
  = [file_with "f1" [column "age" 2%Z]].
Proof.
  assert (Hprev : NoDup (file_id <$> [entry "f1" "a.csv"; entry "f2" "b.csv"]))
    by (by apply (bool_decide_unpack _); vm_compute).
  assert (Hnew : NoDup (file_id <$>
                   files (upload_of [file_with "f1" [column "age" 2%Z]])))
    by (by apply (bool_decide_unpack _); vm_compute).
  apply (proj1 (panel_after_upload _ _ Hprev Hnew)
           (file_with "f1" [column "age" 2%Z])).
  by left.
Defined.

(** No upload loses a dataset id: the ids of the new list are those of
    the old list and those of the response; the entries that stay keep
    their order in front of the response's files; and the list grows by
    the number of files less the number of entries replaced. *)
Theorem upload_keeps_ids data prev :
  (∀ i, i ∈ file_id <$> handleDataUpload data prev
        ↔ i ∈ file_id <$> prev ∨ i ∈ file_id <$> files data)
  ∧ (∃ kept, handleDataUpload data prev = kept ++ files data
             ∧ kept `sublist_of` prev)
  ∧ length (handleDataUpload data prev)
    + length (filter (λ d, file_id d ∈ newIds data) prev)
    = length prev + length (files data).
Proof.
  split; [|split].
  - intros i. rewrite handleDataUpload_ids, elem_of_app. split.
    + intros [Hi|Hi]; [left|by right].
      apply list_elem_of_fmap in Hi as (d & -> & Hd).
      apply elem_of_kept in Hd as [Hd _]. apply list_elem_of_fmap. eauto.
    + intros [Hi|Hi]; [|by right].
      destruct (decide (i ∈ file_id <$> files data)) as [Hin|Hout];
        [by right|left].
      apply list_elem_of_fmap in Hi as (d & -> & Hd).
      apply list_elem_of_fmap. exists d. split; [done|].
      by apply elem_of_kept.
  - eexists. split; [done|]. apply sublist_filter.
  - unfold handleDataUpload. rewrite length_app.
    pose proof (filter_app_complement (λ d, file_id d ∈ newIds data) prev) as Hp.
    apply Permutation_length in Hp. rewrite length_app in Hp. lia.
Qed.

(** A response without files leaves the list, and so the top bar, as it
    was. *)
Theorem upload_without_files ty n prev :
  handleDataUpload {| files := []; file_type := ty; total_files := n |} prev
  = prev
  ∧ top_bar (handleDataUpload
               {| files := []; file_type := ty; total_files := n |} prev)
    = top_bar prev.
Proof.
  assert (Hsame : handleDataUpload
            {| files := []; file_type := ty; total_files := n |} prev = prev).
  { unfold handleDataUpload. simpl. rewrite app_nil_r.
    induction prev as [|d prev IH]; [done|].
    rewrite filter_cons_True; [by rewrite IH|].
    unfold newIds. simpl. apply not_elem_of_empty. }
  by rewrite Hsame.
Qed.

End sidebar_facts.

(** ** The sidebar: the figures of a panel *)

Section panel_facts.
Import Home Sidebar.

Implicit Types (d : UploadedFileInfo) (c : ColumnInfo) (l : list ColumnInfo).

(** The order of the sorted list: no entry has fewer nulls than a later
    one. *)
Local Abbreviation desc := (λ a b : ColumnInfo, (null_count b ≤ null_count a)%Z).

Lemma insert_desc_Permutation c l : insert_desc c l ≡ₚ c :: l.
Proof.
  induction l as [|y l IH]; [done|]. simpl.
  destruct (null_count c <? null_count y)%Z; [|done].
  rewrite IH. apply Permutation_swap.
Qed.

Lemma sort_desc_Permutation l : sort_desc l ≡ₚ l.
Proof.
  induction l as [|c l IH]; [done|]. simpl.
  by rewrite insert_desc_Permutation, IH.
Qed.

Lemma insert_desc_sorted c l :
  StronglySorted desc l → StronglySorted desc (insert_desc c l).
Proof.
  induction 1 as [|y l Hl IH Hy]; simpl; [by repeat constructor|].
  destruct (null_count c <? null_count y)%Z eqn:Hlt.
  - apply Z.ltb_lt in Hlt. constructor; [done|].
    rewrite insert_desc_Permutation. constructor; [lia|done].
  - apply Z.ltb_ge in Hlt. constructor; [by constructor|].
    constructor; [done|].
    eapply Forall_impl; [exact Hy|]. simpl. intros z Hz. lia.
Qed.

Lemma sort_desc_sorted l : StronglySorted desc (sort_desc l).
Proof.
  induction l as [|c l IH]; [constructor|]. simpl.
  by apply insert_desc_sorted.
Qed.

(** Inserting does not reorder the entries of one null count. *)
Lemma insert_desc_stable c l k :
  filter (λ x, null_count x = k) (insert_desc c l)
  = filter (λ x, null_count x = k) (c :: l).
Proof.
  induction l as [|y l IH]; [done|]. simpl.
  destruct (null_count c <? null_count y)%Z eqn:Hlt; [|done].
  apply Z.ltb_lt in Hlt.
  rewrite (filter_cons _ y (insert_desc c l)), IH.
  rewrite (filter_cons _ c (y :: l)), (filter_cons _ c l), (filter_cons _ y l).
  repeat case_decide; try done; lia.
Qed.

Lemma sort_desc_stable l k :
  filter (λ x, null_count x = k) (sort_desc l)
  = filter (λ x, null_count x = k) l.
Proof.
  induction l as [|c l IH]; [done|]. simpl.
  by rewrite insert_desc_stable, !filter_cons, IH.
Qed.

(** The rows of Columns with Missing Data are the columns with a positive
    null count, each as often as the file has it, the most nulls first;
    columns with the same count keep the order of the file. *)
Theorem missing_columns_sorted d :
  missing_columns d ≡ₚ filter (λ c, (0 < null_count c)%Z) (column_info d)
  ∧ (∀ c, c ∈ missing_columns d ↔ c ∈ column_info d ∧ (0 < null_count c)%Z)
  ∧ StronglySorted (λ a b, (null_count b ≤ null_count a)%Z) (missing_columns d)
  ∧ (∀ k, (0 < k)%Z →
          filter (λ c, null_count c = k) (missing_columns d)
          = filter (λ c, null_count c = k) (column_info d)).
Proof.
  unfold missing_columns. split; [apply sort_desc_Permutation|].
  split; [|split; [apply sort_desc_sorted|]].
  - intros c. rewrite sort_desc_Permutation, list_elem_of_filter. tauto.
  - intros k Hk. rewrite sort_desc_stable, list_filter_filter.
    apply list_filter_iff. intros c. split; [tauto|]. intros Hc. split; [done|lia].
Qed.

Lemma totalNulls_fold l z :
  foldl (λ s c, (s + null_count c)%Z) z l
  = (z + foldr (λ c s, null_count c + s) 0 l)%Z.
Proof.
  revert z. induction l as [|c l IH]; intros z; simpl; [lia|].
  rewrite IH. lia.
Qed.

Lemma positive_sum_has_positive l :
  (0 < foldr (λ c s, null_count c + s) 0 l)%Z →
  ∃ c, c ∈ l ∧ (0 < null_count c)%Z.
Proof.
  induction l as [|c l IH]; simpl; [lia|]. intros Hsum.
  destruct (decide (0 < null_count c)%Z) as [Hc|Hc].
  - exists c. split; [by left|done].
  - destruct IH as (c' & Hin & Hc'); [lia|].
    exists c'. split; [by right|done].
Qed.

Lemma nonneg_sum_positive l c :
  Forall (λ x, (0 ≤ null_count x)%Z) l → c ∈ l → (0 < null_count c)%Z →
  (0 < foldr (λ c s, null_count c + s) 0 l)%Z.
Proof.
  induction 1 as [|y l Hy Hl IH]; intros Hin Hc; [by apply elem_of_nil in Hin|].
  simpl. assert (0 ≤ foldr (λ c s, null_count c + s) 0 l)%Z as Hrest.
  { clear IH Hin. induction Hl as [|z l Hz Hl IH]; simpl; lia. }
  apply elem_of_cons in Hin as [->|Hin]; [lia|].
  specialize (IH Hin Hc). lia.
Qed.

(** The section Columns with Missing Data is never shown empty: it is
    rendered when the null counts sum to more than zero, and then some
    column has a positive count. When no null count is negative, the
    section is shown exactly when some column has nulls, and its first row
    is a column with the most nulls. *)
Theorem null_warnings_shown d :
  (∀ l, null_warnings d = Some l → l = missing_columns d ∧ l ≠ [])
  ∧ (Forall (λ c, (0 ≤ null_count c)%Z) (column_info d) →
     (is_Some (null_warnings d)
      ↔ ∃ c, c ∈ column_info d ∧ (0 < null_count c)%Z)
     ∧ ∀ l c, null_warnings d = Some l → c ∈ column_info d →
              ∃ top, head l = Some top ∧ (null_count c ≤ null_count top)%Z).
Proof.
  assert (Hne : (0 < totalNulls d)%Z → missing_columns d ≠ []).
  { unfold totalNulls. rewrite totalNulls_fold. intros Hpos Hnil.
    destruct (positive_sum_has_positive (column_info d)) as (c & Hin & Hc); [lia|].
    assert (c ∈ missing_columns d) as Hm.
    { unfold missing_columns. rewrite sort_desc_Permutation.
      by apply list_elem_of_filter. }
    rewrite Hnil in Hm. by apply elem_of_nil in Hm. }
  split.
  - intros l. unfold null_warnings. case_decide; [|done].
    intros [= <-]. split; [done|by apply Hne].
  - intros Hnonneg. split.
    + unfold null_warnings. split.
      * case_decide as Hpos; [|by intros [? ?]]. intros _.
        unfold totalNulls in Hpos. rewrite totalNulls_fold in Hpos.
        apply positive_sum_has_positive. lia.
      * intros (c & Hin & Hc). rewrite decide_True; [done|].
        unfold totalNulls. rewrite totalNulls_fold.
        pose proof (nonneg_sum_positive _ c Hnonneg Hin Hc). lia.
    + intros l c. unfold null_warnings. case_decide as Hpos; [|done].
      intros [= <-] Hin.
      pose proof (Hne Hpos) as Hnil.
      pose proof (sort_desc_sorted
                    (filter (λ c, (0 < null_count c)%Z) (column_info d))) as Hs.
      fold (missing_columns d) in Hs.
      destruct (missing_columns d) as [|top l] eqn:Hm; [done|].
      exists top. split; [done|].
      assert (Htop : (0 < null_count top)%Z).
      { assert (top ∈ missing_columns d) as Ht by (rewrite Hm; by left).
        unfold missing_columns in Ht. rewrite sort_desc_Permutation in Ht.
        by apply list_elem_of_filter in Ht as [Ht _]. }
      destruct (decide (0 < null_count c)%Z) as [Hc|Hc]; [|lia].
      assert (c ∈ top :: l) as Hcl.
      { rewrite <- Hm. unfold missing_columns. rewrite sort_desc_Permutation.
        by apply list_elem_of_filter. }
      apply elem_of_cons in Hcl as [->|Hcl]; [lia|].
      apply StronglySorted_inv in Hs as [_ Hall].
      rewrite Forall_forall in Hall. by apply Hall.
Qed.

Lemma null_warnings_shown_witness :
  null_warnings
    (file_with "f1" [column "age" 1%Z; column "gene_A" 0%Z; column "dose" 2%Z])
  = Some [column "dose" 2%Z; column "age" 1%Z]
  ∧ (is_Some (null_warnings
        (file_with "f1" [column "age" 1%Z; column "gene_A" 0%Z; column "dose" 2%Z]))
     ↔ ∃ c, c ∈ [column "age" 1%Z; column "gene_A" 0%Z; column "dose" 2%Z]
            ∧ (0 < null_count c)%Z).
Proof.
  split; [reflexivity|].
  apply (proj2 (null_warnings_shown
           (file_with "f1" [column "age" 1%Z; column "gene_A" 0%Z;
                            column "dose" 2%Z]))).
  repeat constructor; by vm_compute.
Defined.

(** Negative counts can hide a column that has nulls. *)
Example null_warnings_hidden :
  null_warnings (file_with "f1" [column "age" 1%Z; column "dose" (-1)%Z]) = None.
Proof. reflexivity. Qed.

End panel_facts.

(** ** The sidebar: column counts, and the datasets of the initial load *)

Section counts_facts.
Import Home Sidebar.

Implicit Types (d : UploadedFileInfo) (c : ColumnInfo).

(** When the file describes each of its columns once, Text / Other counts
    the described columns without a range and is not negative, and the
    Numeric Ranges section is shown exactly when some column has a range,
    with one row per numeric column. *)
Theorem text_columns_counted d :
  length (column_info d) = length (columns d) →
  textCols d
  = Z.of_nat (length (filter (λ c, ¬ has_range c) (column_info d)))
  ∧ (0 ≤ textCols d)%Z
  ∧ (is_Some (numeric_ranges d) ↔ ∃ c, c ∈ column_info d ∧ has_range c)
  ∧ (∀ l, numeric_ranges d = Some l → Z.of_nat (length l) = numericCols d).
Proof.
  intros Hlen.
  pose proof (filter_app_complement (λ c, has_range c) (column_info d)) as Hp.
  apply Permutation_length in Hp. rewrite length_app in Hp.
  assert (Htext : textCols d
    = Z.of_nat (length (filter (λ c, ¬ has_range c) (column_info d)))).
  { unfold textCols, numericCols. lia. }
  split; [done|]. split; [lia|]. unfold numeric_ranges, numericCols. split.
  - split.
    + case_decide as Hpos; [|by intros [? ?]]. intros _.
      destruct (filter (λ c, has_range c) (column_info d)) as [|c l] eqn:Hf;
        [simpl in Hpos; lia|].
      assert (c ∈ filter (λ c, has_range c) (column_info d)) as Hc
        by (rewrite Hf; by left).
      apply list_elem_of_filter in Hc as [Hc Hin]. by exists c.
    + intros (c & Hin & Hc). rewrite decide_True; [done|].
      assert (c ∈ filter (λ c, has_range c) (column_info d)) as Hf
        by by apply list_elem_of_filter.
      destruct (filter (λ c, has_range c) (column_info d)); [|simpl; lia].
      by apply elem_of_nil in Hf.
  - intros l. case_decide; [|done]. by intros [= <-].
Qed.

Lemma text_columns_counted_witness :
  textCols (file_with "f1" [column "age" 1%Z; column "dose" 0%Z]) = 2%Z.
Proof.
  rewrite (proj1 (text_columns_counted
                    (file_with "f1" [column "age" 1%Z; column "dose" 0%Z])
                    eq_refl)).
  reflexivity.
Defined.

(** A file that names fewer columns than it describes as numeric. *)
Example text_columns_negative :
  textCols {| file_id := "f1"; filename := "a.csv"; columns := [];
              column_info :=
                [{| name := "age"; dtype := "int64"; null_count := 0%Z;
                    unique_count := 3%Z; sample_values := [];
                    min := Some 30%Z; max := Some 70%Z; mean := Some 50%Z |}];
              row_count := 3%Z; preview := [] |}
  = (-1)%Z.
Proof. reflexivity. Qed.

(** The list of the initial load has the ids of the list endpoint in its
    order (none when the response has no list), and the panel of each of
    its entries reports every column as Text / Other, no missing cell, no
    numeric range and no preview, whatever the dataset holds. *)
Theorem initial_datasets_panels (ms : option (list DatasetMeta)) :
  file_id <$> initial_datasets ms = meta_file_id <$> default [] ms
  ∧ filename <$> initial_datasets ms = meta_filename <$> default [] ms
  ∧ ∀ d, d ∈ initial_datasets ms →
         totalNulls d = 0%Z
         ∧ numericCols d = 0%Z
         ∧ textCols d = Z.of_nat (length (columns d))
         ∧ numeric_ranges d = None
         ∧ null_warnings d = None
         ∧ preview_shown d = false.
Proof.
  unfold initial_datasets. split; [|split].
  - rewrite <- list_fmap_compose. by apply list_fmap_ext.
  - rewrite <- list_fmap_compose. by apply list_fmap_ext.
  - intros d Hd. apply list_elem_of_fmap in Hd as (m & -> & _).
    unfold textCols, numericCols. simpl. repeat split; try done. lia.
Qed.

End counts_facts.

(** ** The document list *)

Section documents_facts.
Import Home.

Implicit Types (data : DocUploadResponse) (prev : list DocListItem).

(** No upload loses a document id: the ids of the new list are those of
    the old list and the uploaded one; the entries of the other documents
    stay as they were, in their order; and handling the same response
    again changes nothing. *)
Theorem handleDocUpload_keeps_others data prev :
  (∀ i, i ∈ doc_id <$> handleDocUpload data prev
        ↔ i ∈ doc_id <$> prev ∨ i = resp_doc_id data)
  ∧ filter (λ d, doc_id d ≠ resp_doc_id data) (handleDocUpload data prev)
    = filter (λ d, doc_id d ≠ resp_doc_id data) prev
  ∧ handleDocUpload data (handleDocUpload data prev)
    = handleDocUpload data prev.
Proof.
  assert (Hothers :
    filter (λ d, doc_id d ≠ resp_doc_id data) (handleDocUpload data prev)
    = filter (λ d, doc_id d ≠ resp_doc_id data) prev).
  { unfold handleDocUpload. rewrite filter_app, list_filter_filter.
    rewrite filter_cons_False by (simpl; tauto).
    rewrite filter_nil, app_nil_r. apply list_filter_iff. tauto. }
  split; [|split; [done|]].
  - intros i. unfold handleDocUpload.
    rewrite fmap_app, elem_of_app. simpl. rewrite list_elem_of_singleton.
    split.
    + intros [Hi|Hi]; [left|by right].
      apply list_elem_of_fmap in Hi as (d & -> & Hd).
      apply list_elem_of_filter in Hd as [_ Hd]. apply list_elem_of_fmap. eauto.
    + intros [Hi|Hi]; [|by right].
      destruct (decide (i = resp_doc_id data)) as [Heq|Hne]; [by right|left].
      apply list_elem_of_fmap in Hi as (d & -> & Hd).
      apply list_elem_of_fmap. exists d. split; [done|].
      by apply list_elem_of_filter.
  - unfold handleDocUpload at 1. rewrite Hothers. done.
Qed.

End documents_facts.

(** ** The page over a session *)

Section page_session_facts.
Import Home Sidebar.

(** Over a whole session the keys of the dataset list stay unique: when
    the list endpoint reports each id once and every upload response
    carries pairwise distinct ids, the list after the initial load and any
    sequence of uploads has unique ids, at most one panel is open, and no
    id of the initial load or of a response is missing from it. *)
Theorem session_keeps_unique_ids (ms : option (list DatasetMeta))
    (responses : list UploadDataResponse) e :
  NoDup (meta_file_id <$> default [] ms) →
  Forall (λ data, NoDup (file_id <$> files data)) responses →
  NoDup (file_id <$> after_uploads responses (initial_datasets ms))
  ∧ (length (expanded_panels
               (after_uploads responses (initial_datasets ms)) e) ≤ 1)%nat
  ∧ (∀ i, i ∈ meta_file_id <$> default [] ms
          ∨ (∃ data, data ∈ responses ∧ i ∈ file_id <$> files data) →
          i ∈ file_id <$> after_uploads responses (initial_datasets ms)).
Proof.
  intros Hms Hresp.
  assert (Hinit : file_id <$> initial_datasets ms = meta_file_id <$> default [] ms).
  { unfold initial_datasets. rewrite <- list_fmap_compose.
    by apply list_fmap_ext. }
  rewrite <- Hinit in Hms. rewrite <- Hinit. clear Hinit.
  generalize dependent (initial_datasets ms). intros ds Hds.
  assert (Hnd : NoDup (file_id <$> after_uploads responses ds)).
  { revert ds Hds. induction Hresp as [|data responses Hdata _ IH];
      intros ds Hds; [done|]. simpl. apply IH. by apply upload_ids_NoDup. }
  split; [done|]. split; [by apply expanded_panels_at_most_one|].
  clear Hnd Hresp Hds. revert ds.
  induction responses as [|data responses IH]; intros ds i.
  - intros [Hi|(data & Hin & _)]; [done|by apply elem_of_nil in Hin].
  - simpl. intros [Hi|(data' & Hin & Hi)].
    + apply IH. left. rewrite handleDataUpload_ids, elem_of_app.
      destruct (decide (i ∈ file_id <$> files data)) as [Hnew|Hold];
        [by right|left].
      apply list_elem_of_fmap in Hi as (d & -> & Hd).
      apply list_elem_of_fmap. exists d. split; [done|].
      by apply elem_of_kept.
    + apply elem_of_cons in Hin as [->|Hin].
      * apply IH. left. rewrite handleDataUpload_ids, elem_of_app. by right.
      * apply IH. right. eauto.
Qed.

Lemma session_keeps_unique_ids_witness :
  NoDup (file_id <$>
           after_uploads
             [upload_of [entry "f2" "b-v2.csv"; entry "f3" "c.csv"];
              upload_of [entry "f1" "a-v2.csv"]]
             (initial_datasets
                (Some [{| meta_file_id := "f1"; meta_filename := "a.csv";
                          meta_columns := []; meta_row_count := 0%Z |};
                       {| meta_file_id := "f2"; meta_filename := "b.csv";
                          meta_columns := []; meta_row_count := 0%Z |}]))).
Proof.
  apply (session_keeps_unique_ids
           (Some [{| meta_file_id := "f1"; meta_filename := "a.csv";
                     meta_columns := []; meta_row_count := 0%Z |};
                  {| meta_file_id := "f2"; meta_filename := "b.csv";
                     meta_columns := []; meta_row_count := 0%Z |}])
           [upload_of [entry "f2" "b-v2.csv"; entry "f3" "c.csv"];
            upload_of [entry "f1" "a-v2.csv"]] None).
  - by apply (bool_decide_unpack _); vm_compute.
  - repeat constructor; by apply (bool_decide_unpack _); vm_compute.
Defined.

End page_session_facts.
